(** * taskflow.engines.action_engine.graph_action

    A shallow embedding of [FutureGraphAction], the driver that schedules the
    atoms of a flow, waits on the futures it obtained, escalates failures
    through the retry controllers and reports the outcome of the run.

    The driver is Python code over four collaborators (analyzer, storage,
    task action, retry action).  Their mutable state is gathered in one
    [World] that every operation threads explicitly; exceptions are values
    of [Exc]; the generator [execute_iter] is a resumable machine whose
    control points are the [yield] statements of the source. *)

From Stdlib Require Import List String Bool Arith Lia ListSet Permutation.
Import ListNotations.
Local Open Scope string_scope.
Local Open Scope list_scope.

(** ** Constants of the modules the source imports *)

(** [taskflow.states], imported as [st]: flow and atom states, the progress
    markers the generator yields, and the intentions. *)
Module st.

Inductive state : Set :=
| PENDING | RUNNING | SUCCESS | FAILURE | REVERTING | REVERTED | RETRYING
| SUSPENDING | SUSPENDED | RESUMING | SCHEDULING | WAITING | ANALYZING.

(** What the store holds as an atom's intention.  Anything that is not one
    of the three constants is kept as [UNRECOGNIZED]. *)
Inductive intention : Set :=
| EXECUTE | REVERT | RETRY | UNRECOGNIZED (v : string).

Definition state_eq_dec (a b : state) : {a = b} + {a <> b}.
Proof. decide equality. Defined.

Definition eqb (a b : state) : bool :=
  if state_eq_dec a b then true else false.

Definition intention_str (i : intention) : string :=
  match i with
  | EXECUTE => "EXECUTE"
  | REVERT => "REVERT"
  | RETRY => "RETRY"
  | UNRECOGNIZED v => v
  end.

End st.

(** [taskflow.retry], imported as [r]: what a retry controller may answer
    when one of the atoms it guards failed. *)
Module r.

Inductive action : Set :=
| RETRY | REVERT | REVERT_ALL | UNRECOGNIZED (v : string).

End r.

(** [taskflow.engines.action_engine.executor], imported as [ex]. *)
Module ex.

Inductive event : Set := EXECUTED | REVERTED.

Definition event_eq_dec (a b : event) : {a = b} + {a <> b}.
Proof. decide equality. Defined.

End ex.

(** ** Atoms, failures, futures *)

(** What [isinstance] tells the driver about a node. *)
Inductive Kind : Set :=
| BaseTask   (* isinstance(node, task.BaseTask) *)
| Retry      (* isinstance(node, r.Retry) *)
| Neither.

Record Atom : Set := mkAtom { name : string; kind : Kind }.

Definition Atom_eq_dec (a b : Atom) : {a = b} + {a <> b}.
Proof. repeat decide equality. Defined.

(** Exceptions (all of them subclasses of [Exception]). *)
Inductive Exn : Set :=
| TypeError (msg : string)
| ExecutionFailure (msg : string)
| RuntimeError (msg : string)     (* maximum recursion depth exceeded *)
| Exception (msg : string).

(** [misc.Failure]: a captured exception. *)
Record Failure : Set := mkFailure { exception : Exn }.

(** What a future resolves to, and what the store keeps as a result. *)
Inductive Result : Set :=
| Value (v : nat)
| Fail (f : Failure).       (* isinstance(result, misc.Failure) *)

Definition is_Failure (res : Result) : bool :=
  match res with Fail _ => true | Value _ => false end.

(** What leaves the generator as a raised error: an exception, or the
    aggregate of several captured failures. *)
Inductive Error : Set :=
| Raising (e : Exn)
| WrappedFailure (causes : list Failure).

(** Results of fallible calls. *)
Inductive Exc (A : Type) : Type :=
| Ok (a : A)
| Raised (e : Exn).
Arguments Ok {A} a.
Arguments Raised {A} e.

(** A future is the handle of one scheduled action on one atom. *)
Record Future : Set := mkFuture {
  fut_id : nat;
  fut_node : Atom;
  fut_event : ex.event
}.

Definition Future_eq_dec (a b : Future) : {a = b} + {a <> b}.
Proof.
  decide equality;
    [ apply ex.event_eq_dec | apply Atom_eq_dec | apply Nat.eq_dec ].
Defined.

(** Python sets are lists here; [add] and [update] keep them free of
    repetitions, the order of iteration is the order of the list. *)
Definition add_node : Atom -> list Atom -> list Atom := set_add Atom_eq_dec.
Definition add_future : Future -> list Future -> list Future :=
  set_add Future_eq_dec.

Definition update_nodes (s more : list Atom) : list Atom :=
  fold_left (fun acc n => add_node n acc) more s.
Definition update_futures (s more : list Future) : list Future :=
  fold_left (fun acc f => add_future f acc) more s.

(** ** The store *)

(** Modelled from the spec: the State Store, a mapping from atom names to
    the persisted state, result and intention, with the state of the flow.
    The storage class is not part of this file of the repository. *)
Record Storage : Type := mkStorage {
  flow_state : st.state;
  atom_intention : string -> st.intention;
  atom_state : string -> st.state;
  atom_result : string -> Result;
  atom_progress : string -> nat     (* hundredths; 0 stands for 0.0 *)
}.

Definition upd {A : Type} (f : string -> A) (k : string) (v : A)
  : string -> A :=
  fun k' => if string_dec k k' then v else f k'.

(** ** Calls made on the collaborators *)

Inductive Call : Type :=
| storage_set_atom_intention (n : string) (i : st.intention)
| task_action_change_state (node : Atom) (s : st.state)
| retry_action_change_state (node : Atom) (s : st.state)
| task_action_schedule_execution (node : Atom)
| task_action_schedule_reversion (node : Atom)
| retry_action_execute (node : Atom)
| retry_action_revert (node : Atom)
| retry_action_on_failure (retry atom : Atom) (failure : Result)
| task_action_complete_execution (node : Atom) (res : Result)
| task_action_complete_reversion (node : Atom) (res : Result)
| task_action_wait_for_any (fs : list Future) (timeout : nat)
| future_result (f : Future)
| analyzer_get_next_nodes (node : option Atom).

(** The state every operation threads: the store, the futures handed out by
    the proxies and not yet reported done by [wait_for_any], the number of
    futures created so far, and the calls made so far (oldest first). *)
Record World : Type := mkWorld {
  storage : Storage;
  pending : list Future;
  issued : nat;
  calls : list Call
}.

Definition with_storage (s : Storage) (w : World) : World :=
  mkWorld s (pending w) (issued w) (calls w).

Definition called (c : Call) (w : World) : World :=
  mkWorld (storage w) (pending w) (issued w) (calls w ++ [c]).

(** ** The collaborators *)

(** What a proxy call did to the store and the exception it raised, if any. *)
Definition Response : Type := (Storage * option Exn)%type.

(** Modelled from the spec: the Graph Analyzer.  Topology is fixed for a
    run; readiness and success depend on the world. *)
Record Analyzer : Type := mkAnalyzer {
  get_next_nodes_answer : option Atom -> World -> Exc (list Atom);
  find_atom_retry : Atom -> option Atom;
  iterate_subgraph : Atom -> list Atom;
  iterate_all_nodes : list Atom;
  iterate_retries : st.state -> World -> list Atom;
  is_success : World -> bool
}.

(** Modelled from the spec: the Task Action Proxy and the executor behind
    it.  The fields say how the outside answers; the operations the driver
    calls are defined from them below. *)
Record TaskAction : Type := mkTaskAction {
  schedule_execution_response : Atom -> World -> Response;
  schedule_reversion_response : Atom -> World -> Response;
  complete_execution_response : Atom -> Result -> World -> Response;
  complete_reversion_response : Atom -> Result -> World -> Response;
  resolved : nat -> Future -> World -> bool;
  result_response : Future -> World -> Exc Result
}.

(** Modelled from the spec: the Retry Action Proxy. *)
Record RetryAction : Type := mkRetryAction {
  execute_response : Atom -> World -> Response;
  revert_response : Atom -> World -> Response;
  on_failure_answer : Atom -> Atom -> Result -> World -> r.action
}.

(** [FutureGraphAction.__init__]: the driver holds its collaborators (the
    store lives in the world). *)
Record FutureGraphAction : Type := mkFutureGraphAction {
  _analyzer : Analyzer;
  _task_action : TaskAction;
  _retry_action : RetryAction
}.

Definition _WAITING_TIMEOUT : nat := 60.


(** ** Operations of the collaborators, as the driver calls them *)

Section Driver.

Variable self : FutureGraphAction.

(** The interpreter's recursion limit: the depth at which a recursive call
    raises [RuntimeError] instead of running. *)
Variable recursion_limit : nat.

(** *** Storage *)

(** Modelled from the spec: [storage.get_flow_state()], the State Store's
    [flowState()]. *)
Definition get_flow_state (w : World) : st.state :=
  flow_state (storage w).

(** Modelled from the spec: [storage.get_atom_intention(name)], the State
    Store's [intentionOf(name)]. *)
Definition get_atom_intention (n : string) (w : World) : st.intention :=
  atom_intention (storage w) n.

(** Modelled from the spec: what [setIntention(name, Intention)] does to
    the State Store; it writes the intention of that atom and nothing
    else. *)
Definition write_intention (n : string) (i : st.intention) (s : Storage)
  : Storage :=
  mkStorage (flow_state s) (upd (atom_intention s) n i) (atom_state s)
            (atom_result s) (atom_progress s).

(** Modelled from the spec: [storage.set_atom_intention(name, intention)],
    the State Store's [setIntention]. *)
Definition set_atom_intention (n : string) (i : st.intention) (w : World)
  : World :=
  called (storage_set_atom_intention n i)
         (with_storage (write_intention n i (storage w)) w).

(** Modelled from the spec: [storage.get(name)], the State Store's
    [lastResult(name)]. *)
Definition storage_get (n : string) (w : World) : Result :=
  atom_result (storage w) n.

(** *** Analyzer *)

(** Modelled from the spec: [analyzer.get_state(node)], the Analyzer's
    [stateOf(atom)], the state the store holds for the atom. *)
Definition get_state (node : Atom) (w : World) : st.state :=
  atom_state (storage w) (name node).

(** Modelled from the spec: [analyzer.get_next_nodes(node=None)], the
    Analyzer's [readyNodes]; it may raise. *)
Definition get_next_nodes (node : option Atom) (w : World)
  : Exc (list Atom) * World :=
  (get_next_nodes_answer (_analyzer self) node w,
   called (analyzer_get_next_nodes node) w).

(** *** Task and retry actions *)

(** Modelled from the spec: what [setState] does to the State Store. *)
Definition write_state (n : string) (s : st.state) (sto : Storage)
  : Storage :=
  mkStorage (flow_state sto) (atom_intention sto) (upd (atom_state sto) n s)
            (atom_result sto) (atom_progress sto).

(** Modelled from the spec: what the [progress] argument of [setState]
    does to the State Store. *)
Definition write_progress (n : string) (p : nat) (sto : Storage) : Storage :=
  mkStorage (flow_state sto) (atom_intention sto) (atom_state sto)
            (atom_result sto) (upd (atom_progress sto) n p).

(** Modelled from the spec: [task_action.change_state(task, state,
    progress=0.0)], the Task Proxy's [setState(task, State, progress)]. *)
Definition task_change_state (task : Atom) (s : st.state) (progress : nat)
  (w : World) : World :=
  called (task_action_change_state task s)
         (with_storage
            (write_progress (name task) progress
               (write_state (name task) s (storage w))) w).

(** Modelled from the spec: [retry_action.change_state(retry, state)], the
    Retry Proxy's [setState(retryController, State)]. *)
Definition retry_change_state (retry : Atom) (s : st.state) (w : World)
  : World :=
  called (retry_action_change_state retry s)
         (with_storage (write_state (name retry) s (storage w)) w).

(** Modelled from the spec: a proxy asked to start work either raises or
    hands out a new future for the node, which stays pending until
    [wait_for_any] reports it. *)
Definition submit (c : Call) (resp : Response) (node : Atom)
  (event : ex.event) (w : World) : Exc Future * World :=
  match snd resp with
  | Some e => (Raised e, called c (with_storage (fst resp) w))
  | None =>
      let f := mkFuture (issued w) node event in
      (Ok f,
       mkWorld (fst resp) (add_future f (pending w)) (S (issued w))
               (calls w ++ [c]))
  end.

(** Modelled from the spec: [task_action.schedule_execution(task)]. *)
Definition schedule_execution (task : Atom) (w : World)
  : Exc Future * World :=
  submit (task_action_schedule_execution task)
         (schedule_execution_response (_task_action self) task w)
         task ex.EXECUTED w.

(** Modelled from the spec: [task_action.schedule_reversion(task)]. *)
Definition schedule_reversion (task : Atom) (w : World)
  : Exc Future * World :=
  submit (task_action_schedule_reversion task)
         (schedule_reversion_response (_task_action self) task w)
         task ex.REVERTED w.

(** Modelled from the spec: [retry_action.execute(retry)]. *)
Definition retry_execute (retry : Atom) (w : World) : Exc Future * World :=
  submit (retry_action_execute retry)
         (execute_response (_retry_action self) retry w)
         retry ex.EXECUTED w.

(** Modelled from the spec: [retry_action.revert(retry)]. *)
Definition retry_revert (retry : Atom) (w : World) : Exc Future * World :=
  submit (retry_action_revert retry)
         (revert_response (_retry_action self) retry w)
         retry ex.REVERTED w.

(** Modelled from the spec: a proxy asked to persist an outcome writes to
    the store and may raise. *)
Definition persist (c : Call) (resp : Response) (w : World)
  : Exc unit * World :=
  (match snd resp with Some e => Raised e | None => Ok tt end,
   called c (with_storage (fst resp) w)).

(** Modelled from the spec: [task_action.complete_execution(task,
    result)]. *)
Definition complete_execution (task : Atom) (res : Result) (w : World)
  : Exc unit * World :=
  persist (task_action_complete_execution task res)
          (complete_execution_response (_task_action self) task res w) w.

(** Modelled from the spec: [task_action.complete_reversion(task,
    result)]. *)
Definition complete_reversion (task : Atom) (res : Result) (w : World)
  : Exc unit * World :=
  persist (task_action_complete_reversion task res)
          (complete_reversion_response (_task_action self) task res w) w.

(** Modelled from the spec: [retry_action.on_failure(retry, atom,
    failure)], the Retry Proxy's [onFailure], a question that writes
    nothing. *)
Definition on_failure (retry atom : Atom) (failure : Result) (w : World)
  : r.action * World :=
  (on_failure_answer (_retry_action self) retry atom failure w,
   called (retry_action_on_failure retry atom failure) w).

Definition mem_future (f : Future) (fs : list Future) : bool :=
  set_mem Future_eq_dec f fs.

(** Modelled from the spec: [task_action.wait_for_any(fs, timeout)], which
    splits [fs] into the futures that have resolved and the others; the
    former stop being pending. *)
Definition wait_for_any (fs : list Future) (timeout : nat) (w : World)
  : (list Future * list Future) * World :=
  let done := filter (fun f => resolved (_task_action self) timeout f w) fs in
  let not_done :=
    filter (fun f => negb (resolved (_task_action self) timeout f w)) fs in
  ((done, not_done),
   mkWorld (storage w)
           (filter (fun f => negb (mem_future f done)) (pending w))
           (issued w)
           (calls w ++ [task_action_wait_for_any fs timeout])).

(** Modelled from the spec: [future.result()], which gives the atom and
    the event of the future with the result, or raises. *)
Definition result (f : Future) (w : World)
  : Exc (Atom * ex.event * Result) * World :=
  (match result_response (_task_action self) f w with
   | Ok res => Ok (fut_node f, fut_event f, res)
   | Raised e => Raised e
   end,
   called (future_result f) w).

(** A [for] loop whose body may raise: the exception ends the loop and
    leaves what was done so far. *)
Fixpoint for_each {A : Type} (body : A -> World -> Exc unit * World)
  (l : list A) (w : World) : Exc unit * World :=
  match l with
  | [] => (Ok tt, w)
  | a :: l' =>
      match body a w with
      | (Ok _, w1) => for_each body l' w1
      | (Raised e, w1) => (Raised e, w1)
      end
  end.

(** ** The driver *)

(** Informational states the action yields while running. *)
Definition ignorable_states : list st.state :=
  [st.SCHEDULING; st.WAITING; st.RESUMING; st.ANALYZING].

Definition is_running (w : World) : bool :=
  st.eqb (get_flow_state w) st.RUNNING.

Definition _revert_all (w : World) : World :=
  fold_left (fun w' node => set_atom_intention (name node) st.REVERT w')
            (iterate_all_nodes (_analyzer self)) w.

Fixpoint _process_atom_failure (depth : nat) (atom : Atom) (failure : Result)
  (w : World) : Exc unit * World :=
  match depth with
  | O => (Raised (RuntimeError "maximum recursion depth exceeded"), w)
  | S depth' =>
      match find_atom_retry (_analyzer self) atom with
      | Some retry =>
          let (action, w1) := on_failure retry atom failure w in
          match action with
          | r.RETRY =>
              let w2 := set_atom_intention (name retry) st.RETRY w1 in
              (Ok tt,
               fold_left
                 (fun w' node => set_atom_intention (name node) st.REVERT w')
                 (iterate_subgraph (_analyzer self) retry) w2)
          | r.REVERT => _process_atom_failure depth' retry failure w1
          | r.REVERT_ALL => (Ok tt, _revert_all w1)
          | r.UNRECOGNIZED _ => (Ok tt, w1)
          end
      | None => (Ok tt, _revert_all w)
      end
  end.

Definition _reset_node (intention : st.intention) (node : Atom) (w : World)
  : Exc unit * World :=
  match kind node with
  | BaseTask =>
      (Ok tt,
       set_atom_intention (name node) intention
         (task_change_state node st.PENDING 0 w))
  | Retry =>
      (Ok tt,
       set_atom_intention (name node) intention
         (retry_change_state node st.PENDING w))
  | Neither =>
      (Raised (TypeError ("Unknown how to reset node " ++ name node)), w)
  end.

Definition _reset_nodes (nodes_iter : list Atom) (intention : st.intention)
  (w : World) : Exc unit * World :=
  for_each (_reset_node intention) nodes_iter w.

Definition reset_all (w : World) : Exc unit * World :=
  _reset_nodes (iterate_all_nodes (_analyzer self)) st.EXECUTE w.

Definition _retry_subflow (retry : Atom) (w : World) : Exc unit * World :=
  _reset_nodes (iterate_subgraph (_analyzer self) retry) st.EXECUTE
               (set_atom_intention (name retry) st.EXECUTE w).

Definition _schedule_task (task : Atom) (w : World) : Exc Future * World :=
  match get_atom_intention (name task) w with
  | st.EXECUTE => schedule_execution task w
  | st.REVERT => schedule_reversion task w
  | intention =>
      (Raised (ExecutionFailure
                 ("Unknown how to schedule task with intention: "
                    ++ st.intention_str intention)), w)
  end.

Definition _schedule_retry (retry : Atom) (w : World) : Exc Future * World :=
  match get_atom_intention (name retry) w with
  | st.EXECUTE => retry_execute retry w
  | st.REVERT => retry_revert retry w
  | st.RETRY =>
      match _retry_subflow retry (retry_change_state retry st.RETRYING w) with
      | (Ok _, w1) => retry_execute retry w1
      | (Raised e, w1) => (Raised e, w1)
      end
  | intention =>
      (Raised (ExecutionFailure
                 ("Unknown how to schedule retry with intention: "
                    ++ st.intention_str intention)), w)
  end.

Definition _schedule_node (node : Atom) (w : World) : Exc Future * World :=
  match kind node with
  | BaseTask => _schedule_task node w
  | Retry => _schedule_retry node w
  | Neither =>
      (Raised (TypeError ("Unknown how to schedule node " ++ name node)), w)
  end.

(** The loop of [_schedule], with the set [futures] built so far. *)
Fixpoint _schedule_loop (futures : list Future) (nodes : list Atom)
  (w : World) : (list Future * list Failure) * World :=
  match nodes with
  | [] => ((futures, []), w)
  | node :: nodes' =>
      match _schedule_node node w with
      | (Ok f, w1) => _schedule_loop (add_future f futures) nodes' w1
      | (Raised e, w1) => ((futures, [mkFailure e]), w1)
      end
  end.

Definition _schedule (nodes : list Atom) (w : World)
  : (list Future * list Failure) * World :=
  _schedule_loop [] nodes w.

Definition _complete_task (task : Atom) (event : ex.event) (res : Result)
  (w : World) : Exc unit * World :=
  match event with
  | ex.EXECUTED => complete_execution task res w
  | _ => complete_reversion task res w
  end.

Definition _prepare_flow_for_resume (w : World)
  : Exc (list Atom) * World :=
  match
    for_each
      (fun node w' =>
         if st.eqb (get_state node w') st.FAILURE
         then _process_atom_failure recursion_limit node
                (storage_get (name node) w') w'
         else (Ok tt, w'))
      (iterate_all_nodes (_analyzer self)) w
  with
  | (Raised e, w1) => (Raised e, w1)
  | (Ok _, w1) =>
      match for_each _retry_subflow
              (iterate_retries (_analyzer self) st.RETRYING w1) w1 with
      | (Raised e, w2) => (Raised e, w2)
      | (Ok _, w2) =>
          (Ok (fold_left
                 (fun next_nodes node =>
                    if st.eqb (get_state node w2) st.RUNNING
                       || st.eqb (get_state node w2) st.REVERTING
                    then add_node node next_nodes else next_nodes)
                 (iterate_all_nodes (_analyzer self)) []),
           w2)
      end
  end.

(** The body of the [try] statement that handles one resolved future.  It
    gives the node of the future when it ends normally; [failures] may have
    grown either way. *)
Definition analyze_try (future : Future) (failures : list Failure)
  (w : World) : Exc Atom * list Failure * World :=
  match result future w with
  | (Raised e, w1) => (Raised e, failures, w1)
  | (Ok (node, event, res), w1) =>
      match
        match kind node with
        | BaseTask => _complete_task node event res w1
        | _ => (Ok tt, w1)
        end
      with
      | (Raised e, w2) => (Raised e, failures, w2)
      | (Ok _, w2) =>
          match res with
          | Fail f =>
              match event with
              | ex.EXECUTED =>
                  match _process_atom_failure recursion_limit node res w2 with
                  | (Raised e, w3) => (Raised e, failures, w3)
                  | (Ok _, w3) => (Ok node, failures, w3)
                  end
              | _ => (Ok node, failures ++ [f], w2)
              end
          | Value _ => (Ok node, failures, w2)
          end
      end
  end.

(** One turn of [for future in done]: the [try], its [except] and its
    [else] with the nested [try]. *)
Definition analyze_future (future : Future) (next_nodes : list Atom)
  (failures : list Failure) (w : World)
  : list Atom * list Failure * World :=
  match analyze_try future failures w with
  | (Raised e, failures1, w1) => (next_nodes, failures1 ++ [mkFailure e], w1)
  | (Ok node, failures1, w1) =>
      match get_next_nodes (Some node) w1 with
      | (Raised e, w2) => (next_nodes, failures1 ++ [mkFailure e], w2)
      | (Ok more_nodes, w2) =>
          (update_nodes next_nodes more_nodes, failures1, w2)
      end
  end.

Fixpoint analyze (done : list Future) (next_nodes : list Atom)
  (failures : list Failure) (w : World)
  : list Atom * list Failure * World :=
  match done with
  | [] => (next_nodes, failures, w)
  | future :: done' =>
      let '(next_nodes1, failures1, w1) :=
        analyze_future future next_nodes failures w in
      analyze done' next_nodes1 failures1 w1
  end.

(** Modelled from the spec: [misc.Failure.reraise_if_any], which re-raises
    the single failure if there is exactly one and raises an aggregate of
    all of them if there are more.  The [misc] module is not part of this
    file of the repository. *)
Definition reraise_if_any (failures : list Failure) : option Error :=
  match failures with
  | [] => None
  | [f] => Some (Raising (exception f))
  | _ => Some (WrappedFailure failures)
  end.

(** *** The generator *)

(** Where the generator is suspended, with the local variables that are
    live there. *)
Inductive Gen : Type :=
| at_start (timeout : option nat)
| at_RESUMING (timeout : nat)
| at_first_SCHEDULING (timeout : nat) (next_nodes : list Atom)
| at_WAITING (timeout : nat) (not_done : list Future)
    (failures : list Failure)
| at_ANALYZING (timeout : nat) (done not_done : list Future)
    (failures : list Failure)
| at_SCHEDULING (timeout : nat) (next_nodes : list Atom)
    (not_done : list Future) (failures : list Failure)
| at_terminal.

(** What resuming the generator gives. *)
Inductive Step : Type :=
| Yield (marker : st.state) (g : Gen) (w : World)
| Raise (e : Error) (w : World)
| StopIteration (w : World).

(** After the [while] loop. *)
Definition conclude (failures : list Failure) (w : World) : Step :=
  match
    match failures with
    | [] => None
    | _ :: _ => reraise_if_any failures
    end
  with
  | Some e => Raise e w
  | None =>
      match get_next_nodes None w with
      | (Raised e, w1) => Raise (Raising e) w1
      | (Ok (_ :: _), w1) => Yield st.SUSPENDED at_terminal w1
      | (Ok [], w1) =>
          if is_success (_analyzer self) w1
          then Yield st.SUCCESS at_terminal w1
          else Yield st.REVERTED at_terminal w1
      end
  end.

(** The test of [while not_done]. *)
Definition while_not_done (timeout : nat) (not_done : list Future)
  (failures : list Failure) (w : World) : Step :=
  match not_done with
  | _ :: _ => Yield st.WAITING (at_WAITING timeout not_done failures) w
  | [] => conclude failures w
  end.

Definition nonempty {A : Type} (l : list A) : bool :=
  match l with [] => false | _ :: _ => true end.

Definition empty {A : Type} (l : list A) : bool := negb (nonempty l).

(** Runs the generator from where it is suspended to its next [yield]. *)
Definition next (g : Gen) (w : World) : Step :=
  match g with
  | at_start timeout =>
      Yield st.RESUMING
            (at_RESUMING
               (match timeout with None => _WAITING_TIMEOUT | Some t => t end))
            w
  | at_RESUMING timeout =>
      match _prepare_flow_for_resume w with
      | (Raised e, w1) => Raise (Raising e) w1
      | (Ok next_nodes, w1) =>
          match get_next_nodes None w1 with
          | (Raised e, w2) => Raise (Raising e) w2
          | (Ok more, w2) =>
              Yield st.SCHEDULING
                    (at_first_SCHEDULING timeout
                       (update_nodes next_nodes more)) w2
          end
      end
  | at_first_SCHEDULING timeout next_nodes =>
      if is_running w
      then
        let '(not_done, failures, w1) := _schedule next_nodes w in
        while_not_done timeout not_done failures w1
      else while_not_done timeout [] [] w
  | at_WAITING timeout not_done failures =>
      let '(done, not_done', w1) := wait_for_any not_done timeout w in
      Yield st.ANALYZING (at_ANALYZING timeout done not_done' failures) w1
  | at_ANALYZING timeout done not_done failures =>
      let '(next_nodes, failures1, w1) := analyze done [] failures w in
      if nonempty next_nodes && empty failures1 && is_running w1
      then
        Yield st.SCHEDULING
              (at_SCHEDULING timeout next_nodes not_done failures1) w1
      else while_not_done timeout not_done failures1 w1
  | at_SCHEDULING timeout next_nodes not_done failures =>
      if is_running w
      then
        let '(more_not_done, failures1, w1) := _schedule next_nodes w in
        while_not_done timeout (update_futures not_done more_not_done)
                       failures1 w1
      else while_not_done timeout not_done failures w
  | at_terminal => StopIteration w
  end.

(** Calling [execute_iter] creates the generator; nothing runs before the
    first [next]. *)
Definition execute_iter (timeout : option nat) : Gen := at_start timeout.

(** *** Runs *)

(** While the generator is suspended anyone may write to the store;
    [others k] is what the store undergoes before the resumption that
    follows [k] markers. *)
Definition interfere (others : nat -> Storage -> Storage) (k : nat)
  (w : World) : World :=
  with_storage (others k (storage w)) w.

Inductive Run : Type :=
| Suspended (markers : list st.state) (g : Gen) (w : World)
| Failed (markers : list st.state) (e : Error) (w : World)
| Returned (markers : list st.state) (w : World).

(** Resumes the generator up to [n] times. *)
Fixpoint iterate (others : nat -> Storage -> Storage) (n : nat)
  (markers : list st.state) (g : Gen) (w : World) : Run :=
  match n with
  | O => Suspended markers g w
  | S n' =>
      match next g (interfere others (List.length markers) w) with
      | Yield m g' w' => iterate others n' (markers ++ [m]) g' w'
      | Raise e w' => Failed markers e w'
      | StopIteration w' => Returned markers w'
      end
  end.

Definition run (others : nat -> Storage -> Storage) (n : nat)
  (timeout : option nat) (w : World) : Run :=
  iterate others n [] (execute_iter timeout) w.

End Driver.

(** ** Properties of runs, as predicates *)

(** The futures the generator holds in [not_done] where it is suspended. *)
Definition not_done_of (g : Gen) : list Future :=
  match g with
  | at_WAITING _ not_done _ => not_done
  | at_ANALYZING _ _ not_done _ => not_done
  | at_SCHEDULING _ _ not_done _ => not_done
  | _ => []
  end.

Definition atoms_of (fs : list Future) : list Atom := map fut_node fs.

Definition same_elements {A : Type} (l1 l2 : list A) : Prop :=
  forall x, In x l1 <-> In x l2.

(** The readiness queries never answer with an atom that has a pending
    future. *)
Definition excludes_in_flight (a : Analyzer) : Prop :=
  forall arg w ready,
    get_next_nodes_answer a arg w = Ok ready ->
    forall node, In node ready -> ~ In node (atoms_of (pending w)).

(** The markers that end a sequence. *)
Definition terminal (m : st.state) : Prop :=
  m = st.SUSPENDED \/ m = st.SUCCESS \/ m = st.REVERTED.

(** [(WAITING ANALYZING [SCHEDULING])*] *)
Inductive turns : list st.state -> Prop :=
| turns_none : turns []
| turns_wait : forall ms,
    turns ms -> turns (ms ++ [st.WAITING; st.ANALYZING])
| turns_wait_schedule : forall ms,
    turns ms -> turns (ms ++ [st.WAITING; st.ANALYZING; st.SCHEDULING]).

(** [RESUMING SCHEDULING (WAITING ANALYZING [SCHEDULING])* terminal] *)
Definition progress_sequence (ms : list st.state) : Prop :=
  exists body last,
    ms = [st.RESUMING; st.SCHEDULING] ++ body ++ [last]
    /\ turns body /\ terminal last.

(** What has been yielded so far, for each place where the generator can
    be suspended. *)
Definition shape (g : Gen) (ms : list st.state) : Prop :=
  match g with
  | at_start _ => ms = []
  | at_RESUMING _ => ms = [st.RESUMING]
  | at_first_SCHEDULING _ _ => ms = [st.RESUMING; st.SCHEDULING]
  | at_WAITING _ _ _ =>
      exists body,
        turns body
        /\ ms = [st.RESUMING; st.SCHEDULING] ++ body ++ [st.WAITING]
  | at_ANALYZING _ _ _ _ =>
      exists body,
        turns body
        /\ ms = [st.RESUMING; st.SCHEDULING] ++ body
                ++ [st.WAITING; st.ANALYZING]
  | at_SCHEDULING _ _ _ _ =>
      exists body,
        turns body
        /\ ms = [st.RESUMING; st.SCHEDULING] ++ body
                ++ [st.WAITING; st.ANALYZING; st.SCHEDULING]
  | at_terminal => progress_sequence ms
  end.

(** The futures [wait_for_any] has just reported done. *)
Definition done_of (g : Gen) : list Future :=
  match g with
  | at_ANALYZING _ done _ _ => done
  | _ => []
  end.

(** The candidate nodes the generator holds where it is suspended. *)
Definition next_nodes_of (g : Gen) : list Atom :=
  match g with
  | at_first_SCHEDULING _ next_nodes => next_nodes
  | at_SCHEDULING _ next_nodes _ _ => next_nodes
  | _ => []
  end.

(** The generator holds exactly the pending futures. *)
Definition holds_the_pending (g : Gen) (w : World) : Prop :=
  same_elements (not_done_of g) (pending w).

(** No atom has two pending futures, and no candidate node has one. *)
Definition one_future_per_atom (g : Gen) (w : World) : Prop :=
  NoDup (pending w)
  /\ NoDup (atoms_of (pending w))
  /\ NoDup (not_done_of g)
  /\ same_elements (not_done_of g) (pending w)
  /\ NoDup (next_nodes_of g)
  /\ forall node, In node (next_nodes_of g) ->
                  ~ In node (atoms_of (pending w)).

(** Calls by which escalation may touch the collaborators: asking a retry
    controller, and writing an intention. *)
Definition escalation_call (c : Call) : bool :=
  match c with
  | storage_set_atom_intention _ _ => true
  | retry_action_on_failure _ _ _ => true
  | _ => false
  end.

(** Readiness queries that pass a completed atom. *)
Definition successor_query (c : Call) : bool :=
  match c with
  | analyzer_get_next_nodes (Some _) => true
  | _ => false
  end.

(** The calls [_reset_nodes] makes on nodes of known kinds, in order. *)
Definition reset_calls (intention : st.intention) (nodes : list Atom)
  : list Call :=
  flat_map
    (fun node =>
       [match kind node with
        | BaseTask => task_action_change_state node st.PENDING
        | _ => retry_action_change_state node st.PENDING
        end;
        storage_set_atom_intention (name node) intention])
    nodes.

Definition known_kind (node : Atom) : Prop :=
  kind node = BaseTask \/ kind node = Retry.

(** The world a resumption leaves. *)
Definition world_of (step : Step) : World :=
  match step with
  | Yield _ _ w => w
  | Raise _ w => w
  | StopIteration w => w
  end.

(** The failures the generator holds where it is suspended in the loop. *)
Definition failures_of (g : Gen) : list Failure :=
  match g with
  | at_WAITING _ _ failures => failures
  | at_ANALYZING _ _ _ failures => failures
  | at_SCHEDULING _ _ _ failures => failures
  | _ => []
  end.

(** Suspended in the loop, at WAITING or at ANALYZING, with a failure
    captured. *)
Definition holds_a_failure (g : Gen) : Prop :=
  match g with
  | at_WAITING _ _ failures => failures <> []
  | at_ANALYZING _ _ _ failures => failures <> []
  | _ => False
  end.

(** Suspended at one of the two SCHEDULING markers. *)
Definition at_a_scheduling (g : Gen) : bool :=
  match g with
  | at_first_SCHEDULING _ _ => true
  | at_SCHEDULING _ _ _ _ => true
  | _ => false
  end.

(** The timeout the generator waits with, once it has started. *)
Definition timeout_of (g : Gen) : option nat :=
  match g with
  | at_start _ => None
  | at_RESUMING t => Some t
  | at_first_SCHEDULING t _ => Some t
  | at_WAITING t _ _ => Some t
  | at_ANALYZING t _ _ _ => Some t
  | at_SCHEDULING t _ _ _ => Some t
  | at_terminal => None
  end.

(** Calls that ask a proxy to start work. *)
Definition scheduling_call (c : Call) : bool :=
  match c with
  | task_action_schedule_execution _ => true
  | task_action_schedule_reversion _ => true
  | retry_action_execute _ => true
  | retry_action_revert _ => true
  | _ => false
  end.

(** Calls that persist the outcome of a task. *)
Definition completion_call (c : Call) : bool :=
  match c with
  | task_action_complete_execution _ _ => true
  | task_action_complete_reversion _ _ => true
  | _ => false
  end.

(** Calls that set the state of an atom. *)
Definition change_state_call (c : Call) : bool :=
  match c with
  | task_action_change_state _ _ => true
  | retry_action_change_state _ _ => true
  | _ => false
  end.

Definition wait_call (c : Call) : bool :=
  match c with
  | task_action_wait_for_any _ _ => true
  | _ => false
  end.

(** What the resume step may call. *)
Definition resume_call (c : Call) : bool :=
  escalation_call c || change_state_call c.

(** What the analyzing step may call. *)
Definition analysis_call (c : Call) : bool :=
  match c with
  | future_result _ => true
  | analyzer_get_next_nodes (Some _) => true
  | _ => escalation_call c || completion_call c
  end.

(** What scheduling a batch may call. *)
Definition batch_call (c : Call) : bool :=
  match c with
  | storage_set_atom_intention _ st.EXECUTE => true
  | _ => scheduling_call c || change_state_call c
  end.

Definition is_task (node : Atom) : bool :=
  match kind node with BaseTask => true | _ => false end.

(** The names of the tasks among [nodes]. *)
Definition task_names (nodes : list Atom) : list string :=
  map name (filter is_task nodes).

(** The same store, field by field and name by name. *)
Definition same_storage (s1 s2 : Storage) : Prop :=
  flow_state s1 = flow_state s2
  /\ (forall n, atom_intention s1 n = atom_intention s2 n)
  /\ (forall n, atom_state s1 n = atom_state s2 n)
  /\ (forall n, atom_result s1 n = atom_result s2 n)
  /\ (forall n, atom_progress s1 n = atom_progress s2 n).

(** From [w] to [w'] the collaborators were only called in the ways [p]
    allows. *)
Definition only_calls (p : Call -> bool) (w w' : World) : Prop :=
  exists new, calls w' = calls w ++ new /\ forallb p new = true.

(** Asking the Analyzer what is ready, with no argument. *)
Definition ready_query (c : Call) : bool :=
  match c with
  | analyzer_get_next_nodes None => true
  | _ => false
  end.

(** What a resumption that schedules nothing may call. *)
Definition no_scheduling_call (c : Call) : bool := negb (scheduling_call c).

(** The markers of a turn of the loop that schedules nothing. *)
Definition loop_marker (m : st.state) : Prop :=
  m = st.WAITING \/ m = st.ANALYZING.

(** [f] is the future of the task [node] for the event [event]. *)
Definition future_of_task (node : Atom) (event : ex.event) (f : Future)
  : bool :=
  is_task node
  && (if Atom_eq_dec node (fut_node f) then true else false)
  && (if ex.event_eq_dec event (fut_event f) then true else false).

(** A call that persists an outcome does it for a task that has a future
    in [done], as an execution or a reversion according to the event of
    that future. *)
Definition persists_within (done : list Future) (c : Call) : bool :=
  match c with
  | task_action_complete_execution node _ =>
      existsb (future_of_task node ex.EXECUTED) done
  | task_action_complete_reversion node _ =>
      existsb (future_of_task node ex.REVERTED) done
  | _ => true
  end.

(** A call that waits does it with the timeout [t]. *)
Definition waits_with (t : nat) (c : Call) : bool :=
  match c with
  | task_action_wait_for_any _ t' => Nat.eqb t' t
  | _ => true
  end.

(** The timeout a run waits with. *)
Definition effective_timeout (timeout : option nat) : nat :=
  match timeout with None => _WAITING_TIMEOUT | Some t => t end.

(** [reverts_to self failure atom w n top w']: escalating the failure of
    [atom] from the world [w], [n] retry controllers in a row, each guarding
    the one before, answer REVERT.  The last of them is [top] ([atom]
    itself when [n] is 0) and [w'] is the world after their answers. *)
Inductive reverts_to (self : FutureGraphAction) (failure : Result)
  : Atom -> World -> nat -> Atom -> World -> Prop :=
| reverts_to_here (atom : Atom) (w : World) :
    reverts_to self failure atom w 0 atom w
| reverts_to_parent (atom retry : Atom) (w : World) (n : nat) (top : Atom)
    (w' : World) :
    find_atom_retry (_analyzer self) atom = Some retry ->
    fst (on_failure self retry atom failure w) = r.REVERT ->
    reverts_to self failure retry
               (snd (on_failure self retry atom failure w)) n top w' ->
    reverts_to self failure atom w (S n) top w'.

(** ** A small flow to run the driver on *)

Module Demo.

Definition A : Atom := mkAtom "A" BaseTask.
Definition B : Atom := mkAtom "B" BaseTask.
Definition C : Atom := mkAtom "C" BaseTask.
Definition D : Atom := mkAtom "D" BaseTask.
Definition T : Atom := mkAtom "T" BaseTask.
Definition R : Atom := mkAtom "R" Retry.
Definition X : Atom := mkAtom "X" Neither.

(** What varies from one scenario to the next. *)
Record Script : Type := mkScript {
  nodes : list Atom;
  requires : Atom -> list Atom;
  guard : Atom -> option Atom;
  guarded : Atom -> list Atom;
  policy : r.action;
  refused : Atom -> bool;
  resolves : Future -> World -> bool;
  outcome : Future -> Exc Result
}.

Definition in_flight (node : Atom) (w : World) : bool :=
  set_mem Atom_eq_dec node (atoms_of (pending w)).

Definition succeeded (w : World) (node : Atom) : bool :=
  st.eqb (atom_state (storage w) (name node)) st.SUCCESS.

(** An atom is ready when it has no pending future and either is to be
    executed, is pending and all it requires has succeeded, or is to be
    reverted and has run, or is a retry controller to be retried. *)
Definition ready (s : Script) (w : World) (node : Atom) : bool :=
  negb (in_flight node w)
  && match atom_intention (storage w) (name node) with
     | st.EXECUTE =>
         st.eqb (atom_state (storage w) (name node)) st.PENDING
         && forallb (succeeded w) (requires s node)
     | st.REVERT =>
         st.eqb (atom_state (storage w) (name node)) st.SUCCESS
         || st.eqb (atom_state (storage w) (name node)) st.FAILURE
     | st.RETRY =>
         match kind node with Retry => true | _ => false end
     | st.UNRECOGNIZED _ => true
     end.

Definition analyzer (s : Script) : Analyzer :=
  mkAnalyzer
    (fun _ w => Ok (filter (ready s w) (nodes s)))
    (guard s)
    (guarded s)
    (nodes s)
    (fun state w =>
       filter
         (fun node =>
            match kind node with
            | Retry => st.eqb (atom_state (storage w) (name node)) state
            | _ => false
            end)
         (nodes s))
    (fun w => forallb (succeeded w) (nodes s)).

Definition starts (s : Script) (state : st.state) (node : Atom) (w : World)
  : Response :=
  if refused s node
  then (storage w, Some (Exception "executor is shut down"))
  else (mkStorage (flow_state (storage w)) (atom_intention (storage w))
          (upd (atom_state (storage w)) (name node) state)
          (atom_result (storage w)) (atom_progress (storage w)),
        None).

Definition ends (good : st.state) (node : Atom) (res : Result) (w : World)
  : Response :=
  (mkStorage (flow_state (storage w)) (atom_intention (storage w))
     (upd (atom_state (storage w)) (name node)
        (if is_Failure res then st.FAILURE else good))
     (upd (atom_result (storage w)) (name node) res)
     (atom_progress (storage w)),
   None).

Definition task_action (s : Script) : TaskAction :=
  mkTaskAction
    (starts s st.RUNNING)
    (starts s st.REVERTING)
    (ends st.SUCCESS)
    (ends st.REVERTED)
    (fun _ f w => resolves s f w)
    (fun f _ => outcome s f).

Definition retry_action (s : Script) : RetryAction :=
  mkRetryAction
    (starts s st.RUNNING)
    (starts s st.REVERTING)
    (fun _ _ _ _ => policy s).

Definition action (s : Script) : FutureGraphAction :=
  mkFutureGraphAction (analyzer s) (task_action s) (retry_action s).

Definition limit : nat := 1000.

(** A store where the flow runs and every atom is pending, to be executed. *)
Definition fresh : Storage :=
  mkStorage st.RUNNING (fun _ => st.EXECUTE) (fun _ => st.PENDING)
            (fun _ => Value 0) (fun _ => 0).

Definition world (s : Storage) : World := mkWorld s [] 0 [].

Definition nobody : nat -> Storage -> Storage := fun _ s => s.

Definition waits (w : World) : nat :=
  List.length
    (filter
       (fun c => match c with task_action_wait_for_any _ _ => true
                            | _ => false end)
       (calls w)).

(** Two independent tasks, both succeed. *)
Definition two_tasks : Script :=
  mkScript [A; B] (fun _ => []) (fun _ => None) (fun _ => [])
           r.REVERT_ALL (fun _ => false) (fun _ _ => true)
           (fun _ => Ok (Value 1)).

Definition boom : Failure := mkFailure (Exception "boom").

(** A task [T] guarded by the retry controller [R], which answers RETRY;
    the execution of [T] fails. *)
Definition guarded_task : Script :=
  mkScript [R; T] (fun _ => [])
           (fun node => if String.eqb (name node) "T" then Some R else None)
           (fun node => if String.eqb (name node) "R" then [T] else [])
           r.RETRY (fun _ => false) (fun _ _ => true)
           (fun f =>
              match fut_event f with
              | ex.EXECUTED =>
                  if String.eqb (name (fut_node f)) "T"
                  then Ok (Fail boom) else Ok (Value 1)
              | ex.REVERTED => Ok (Value 1)
              end).

(** The store after the failure of [T] has been escalated to [R]. *)
Definition retrying : Storage :=
  mkStorage st.RUNNING
            (fun n => if String.eqb n "R" then st.RETRY else st.REVERT)
            (fun n => if String.eqb n "R" then st.SUCCESS else st.REVERTED)
            (fun _ => Value 0) (fun _ => 0).

(** A task and a node that is neither a task nor a retry controller. *)
Definition unknown_node : Script :=
  mkScript [A; X] (fun _ => []) (fun _ => None) (fun _ => [])
           r.REVERT_ALL (fun _ => false) (fun _ _ => true)
           (fun _ => Ok (Value 1)).

(** One task, not guarded, whose execution fails. *)
Definition failing_task : Script :=
  mkScript [A] (fun _ => []) (fun _ => None) (fun _ => [])
           r.REVERT_ALL (fun _ => false) (fun _ _ => true)
           (fun f =>
              match fut_event f with
              | ex.EXECUTED => Ok (Fail boom)
              | ex.REVERTED => Ok (Value 1)
              end).

(** [A] and [B] start together; [C] requires [A] and [D] requires [C].  The
    futures resolve one wait after the other: [A], then [B], then [C],
    then [D]. *)
Definition chain (outcome : Future -> Exc Result) : Script :=
  mkScript [A; B; C; D]
           (fun node =>
              if String.eqb (name node) "C" then [A]
              else if String.eqb (name node) "D" then [C]
              else [])
           (fun _ => None) (fun _ => [])
           r.REVERT_ALL (fun _ => false)
           (fun f w =>
              if String.eqb (name (fut_node f)) "A" then true
              else if String.eqb (name (fut_node f)) "B"
                   then Nat.leb 1 (waits w)
                   else Nat.leb 2 (waits w))
           outcome.

(** The chain where asking the future of [B] for its result raises. *)
Definition late_failure : Script :=
  chain (fun f =>
           if String.eqb (name (fut_node f)) "B"
           then Raised (Exception "boom") else Ok (Value 1)).

(** A store like [fresh] where the flow has been suspended. *)
Definition suspended : Storage :=
  mkStorage st.SUSPENDED (fun _ => st.EXECUTE) (fun _ => st.PENDING)
            (fun _ => Value 0) (fun _ => 0).

(** A store left by an interrupted run: [A] was running. *)
Definition interrupted : Storage :=
  mkStorage st.RUNNING (fun _ => st.EXECUTE)
            (fun n => if String.eqb n "A" then st.RUNNING else st.PENDING)
            (fun _ => Value 0) (fun _ => 0).

(** Two tasks whose futures never resolve. *)
Definition stuck : Script :=
  mkScript [A; B] (fun _ => []) (fun _ => None) (fun _ => [])
           r.REVERT_ALL (fun _ => false) (fun _ _ => false)
           (fun _ => Ok (Value 1)).

(** Where [T] is guarded by [R] and nothing guards [R]. *)
Definition depth (node : Atom) : nat :=
  if String.eqb (name node) "T" then 1 else 0.

(** Somebody suspends the flow while the first futures are in flight. *)
Definition suspender : nat -> Storage -> Storage :=
  fun k s =>
    if Nat.leb 3 k
    then mkStorage st.SUSPENDING (atom_intention s) (atom_state s)
                   (atom_result s) (atom_progress s)
    else s.

End Demo.

(** * Properties *)

(** ** Writing intentions *)

Section Intentions.

Variable i : st.intention.

Lemma get_set_atom_intention_same (n : string) (w : World) :
  get_atom_intention n (set_atom_intention n i w) = i.
Proof.
  unfold get_atom_intention, set_atom_intention, write_intention, upd; simpl.
  destruct (string_dec n n); congruence.
Qed.

Lemma get_set_atom_intention_other (n n' : string) (w : World) :
  n <> n' ->
  get_atom_intention n' (set_atom_intention n i w) = get_atom_intention n' w.
Proof.
  intros Hne.
  unfold get_atom_intention, set_atom_intention, write_intention, upd; simpl.
  destruct (string_dec n n'); congruence.
Qed.

(** The loop [for node in nodes: set_atom_intention(node.name, i)]. *)
Local Abbreviation set_each nodes w :=
  (fold_left (fun w' node => set_atom_intention (name node) i w') nodes w).

Lemma set_each_other (nodes : list Atom) :
  forall w n, ~ In n (map name nodes) ->
              get_atom_intention n (set_each nodes w) = get_atom_intention n w.
Proof.
  induction nodes as [|a nodes IH]; simpl; intros w n Hnot; [reflexivity|].
  rewrite IH by tauto.
  apply get_set_atom_intention_other. tauto.
Qed.

Lemma set_each_written (nodes : list Atom) :
  forall w n, In n (map name nodes) ->
              get_atom_intention n (set_each nodes w) = i.
Proof.
  induction nodes as [|a nodes IH]; simpl; intros w n Hin; [tauto|].
  destruct (in_dec string_dec n (map name nodes)) as [Hlater|Hnot].
  - now apply IH.
  - destruct Hin as [Heq|Hin]; [subst n|contradiction].
    rewrite set_each_other by assumption.
    apply get_set_atom_intention_same.
Qed.

(** Nothing but intentions is written, and every write is a call of
    [set_atom_intention]. *)
Lemma set_each_frame (nodes : list Atom) :
  forall w,
    flow_state (storage (set_each nodes w)) = flow_state (storage w)
    /\ atom_state (storage (set_each nodes w)) = atom_state (storage w)
    /\ atom_result (storage (set_each nodes w)) = atom_result (storage w)
    /\ atom_progress (storage (set_each nodes w)) = atom_progress (storage w)
    /\ pending (set_each nodes w) = pending w
    /\ issued (set_each nodes w) = issued w
    /\ calls (set_each nodes w)
       = calls w
         ++ map (fun node => storage_set_atom_intention (name node) i) nodes.
Proof.
  induction nodes as [|a nodes IH]; simpl; intros w.
  - rewrite app_nil_r. repeat split.
  - destruct (IH (set_atom_intention (name a) i w))
      as (Hf & Hs & Hr & Hp & Hq & Hi & Hc).
    rewrite Hf, Hs, Hr, Hp, Hq, Hi, Hc. simpl.
    rewrite <- app_assoc. repeat split.
Qed.

End Intentions.

(** ** Failure escalation *)

Section Escalation.

Variable self : FutureGraphAction.

Lemma revert_all_reverts (w : World) (node : Atom) :
  In node (iterate_all_nodes (_analyzer self)) ->
  get_atom_intention (name node) (_revert_all self w) = st.REVERT.
Proof.
  intros Hin. unfold _revert_all.
  apply set_each_written. now apply in_map.
Qed.

(** What escalation leaves alone, and the calls it makes. *)
Lemma process_atom_failure_effect (depth : nat) :
  forall atom failure w,
    let w' := snd (_process_atom_failure self depth atom failure w) in
    flow_state (storage w') = flow_state (storage w)
    /\ atom_state (storage w') = atom_state (storage w)
    /\ atom_result (storage w') = atom_result (storage w)
    /\ atom_progress (storage w') = atom_progress (storage w)
    /\ pending w' = pending w
    /\ issued w' = issued w
    /\ exists new, calls w' = calls w ++ new
                   /\ forallb escalation_call new = true.
Proof.
  induction depth as [|depth IH]; intros atom failure w; simpl.
  - repeat split. exists []. now rewrite app_nil_r.
  - destruct (find_atom_retry (_analyzer self) atom) as [retry|].
    + destruct (on_failure_answer (_retry_action self) retry atom failure w).
      * simpl.
        match goal with
        | |- context [fold_left ?f ?l ?w0] =>
            destruct (set_each_frame st.REVERT l w0)
              as (Hf & Hs & Hr & Hp & Hq & Hi & Hc)
        end.
        rewrite Hf, Hs, Hr, Hp, Hq, Hi, Hc. simpl.
        repeat split.
        eexists. rewrite <- !app_assoc. split; [reflexivity|].
        simpl. clear.
        induction (iterate_subgraph (_analyzer self) retry); simpl; auto.
      * specialize (IH retry failure
                       (called (retry_action_on_failure retry atom failure) w)).
        simpl in IH.
        destruct IH as (Hf & Hs & Hr & Hp & Hq & Hi & new & Hc & Hall).
        rewrite Hf, Hs, Hr, Hp, Hq, Hi, Hc. simpl.
        repeat split.
        exists (retry_action_on_failure retry atom failure :: new).
        rewrite <- app_assoc. split; [reflexivity|]. simpl. exact Hall.
      * simpl. unfold _revert_all.
        match goal with
        | |- context [fold_left ?f ?l ?w0] =>
            destruct (set_each_frame st.REVERT l w0)
              as (Hf & Hs & Hr & Hp & Hq & Hi & Hc)
        end.
        rewrite Hf, Hs, Hr, Hp, Hq, Hi, Hc. simpl.
        repeat split.
        eexists. rewrite <- !app_assoc. split; [reflexivity|].
        simpl. clear.
        induction (iterate_all_nodes (_analyzer self)); simpl; auto.
      * simpl. repeat split.
        exists [retry_action_on_failure retry atom failure]. now split.
    + simpl. unfold _revert_all.
      match goal with
      | |- context [fold_left ?f ?l ?w0] =>
          destruct (set_each_frame st.REVERT l w0)
            as (Hf & Hs & Hr & Hp & Hq & Hi & Hc)
      end.
      rewrite Hf, Hs, Hr, Hp, Hq, Hi, Hc.
      repeat split.
      eexists. split; [reflexivity|].
      clear.
      induction (iterate_all_nodes (_analyzer self)); simpl; auto.
Qed.

(** C4.  Case analysis of failure escalation.  With no guarding retry
    controller every atom of the graph gets the intention REVERT.  With a
    guarding controller its answer is followed: RETRY gives the controller
    the intention RETRY and every atom of its guarded subgraph (which does
    not contain the controller) the intention REVERT; REVERT escalates with
    the controller as the failed atom; REVERT_ALL gives every atom of the
    graph the intention REVERT. *)
Theorem process_atom_failure_cases :
  forall (depth : nat) (atom : Atom) (failure : Result) (w : World),
    (find_atom_retry (_analyzer self) atom = None ->
     exists w',
       _process_atom_failure self (S depth) atom failure w = (Ok tt, w')
       /\ forall node, In node (iterate_all_nodes (_analyzer self)) ->
                       get_atom_intention (name node) w' = st.REVERT)
    /\ (forall retry,
          find_atom_retry (_analyzer self) atom = Some retry ->
          (fst (on_failure self retry atom failure w) = r.RETRY ->
           ~ In (name retry)
                (map name (iterate_subgraph (_analyzer self) retry)) ->
           exists w',
             _process_atom_failure self (S depth) atom failure w = (Ok tt, w')
             /\ get_atom_intention (name retry) w' = st.RETRY
             /\ forall node,
                 In node (iterate_subgraph (_analyzer self) retry) ->
                 get_atom_intention (name node) w' = st.REVERT)
          /\ (fst (on_failure self retry atom failure w) = r.REVERT ->
              _process_atom_failure self (S depth) atom failure w
              = _process_atom_failure self depth retry failure
                  (snd (on_failure self retry atom failure w)))
          /\ (fst (on_failure self retry atom failure w) = r.REVERT_ALL ->
              exists w',
                _process_atom_failure self (S depth) atom failure w
                = (Ok tt, w')
                /\ forall node,
                    In node (iterate_all_nodes (_analyzer self)) ->
                    get_atom_intention (name node) w' = st.REVERT)).
Proof.
  intros depth atom failure w. split.
  - intros Hnone. simpl. rewrite Hnone.
    eexists. split; [reflexivity|].
    intros node Hin. now apply revert_all_reverts.
  - intros retry Hsome. simpl. rewrite Hsome. simpl.
    repeat split.
    + intros Hretry Hout. rewrite Hretry.
      eexists. split; [reflexivity|]. split.
      * rewrite set_each_other by assumption.
        apply get_set_atom_intention_same.
      * intros node Hin. apply set_each_written. now apply in_map.
    + intros Hrevert. now rewrite Hrevert.
    + intros Hall. rewrite Hall.
      eexists. split; [reflexivity|].
      intros node Hin. now apply revert_all_reverts.
Qed.

(** C10.  Escalation writes only intentions: after [_process_atom_failure],
    and after [_revert_all], the state of the flow and the stored state,
    result and progress of every atom are what they were, no future was
    handed out or retired, and the only calls made are questions to retry
    controllers and [set_atom_intention]. *)
Theorem escalation_writes_only_intentions :
  forall (depth : nat) (atom : Atom) (failure : Result) (w : World),
    (let w' := snd (_process_atom_failure self depth atom failure w) in
     flow_state (storage w') = flow_state (storage w)
     /\ (forall n, atom_state (storage w') n = atom_state (storage w) n)
     /\ (forall n, atom_result (storage w') n = atom_result (storage w) n)
     /\ (forall n, atom_progress (storage w') n = atom_progress (storage w) n)
     /\ pending w' = pending w
     /\ exists new, calls w' = calls w ++ new
                    /\ forallb escalation_call new = true)
    /\ (let w' := _revert_all self w in
        flow_state (storage w') = flow_state (storage w)
        /\ (forall n, atom_state (storage w') n = atom_state (storage w) n)
        /\ (forall n, atom_result (storage w') n = atom_result (storage w) n)
        /\ (forall n,
              atom_progress (storage w') n = atom_progress (storage w) n)
        /\ pending w' = pending w
        /\ exists new, calls w' = calls w ++ new
                       /\ forallb escalation_call new = true).
Proof.
  intros depth atom failure w. split.
  - destruct (process_atom_failure_effect depth atom failure w)
      as (Hf & Hs & Hr & Hp & Hq & _ & Hc).
    cbv zeta. rewrite Hf, Hs, Hr, Hp, Hq. repeat split. exact Hc.
  - unfold _revert_all.
    match goal with
    | |- context [fold_left ?f ?l ?w0] =>
        destruct (set_each_frame st.REVERT l w0)
          as (Hf & Hs & Hr & Hp & Hq & Hi & Hc)
    end.
    cbv zeta. rewrite Hf, Hs, Hr, Hp, Hq, Hc. repeat split.
    eexists. split; [reflexivity|].
    clear. induction (iterate_all_nodes (_analyzer self)); simpl; auto.
Qed.

(** X18.  Escalation ends: when a rank decreases from every atom to the
    retry controller that guards it, a recursion limit above the rank of
    the failed atom is never reached. *)
Lemma process_atom_failure_terminates (rank : Atom -> nat) :
  (forall atom retry,
      find_atom_retry (_analyzer self) atom = Some retry ->
      rank retry < rank atom) ->
  forall depth atom failure w,
    rank atom < depth ->
    fst (_process_atom_failure self depth atom failure w) = Ok tt.
Proof.
  intros Hrank.
  induction depth as [|depth IH]; intros atom failure w Hlt; [lia|].
  simpl.
  destruct (find_atom_retry (_analyzer self) atom) as [retry|] eqn:Hfind;
    [|reflexivity].
  destruct (on_failure_answer (_retry_action self) retry atom failure w);
    try reflexivity.
  apply IH. specialize (Hrank _ _ Hfind). lia.
Qed.

End Escalation.

Lemma process_atom_failure_cases_witness :
  exists w',
    _process_atom_failure (Demo.action Demo.guarded_task) 2 Demo.T
      (Fail Demo.boom) (Demo.world Demo.fresh) = (Ok tt, w')
    /\ get_atom_intention "R" w' = st.RETRY
    /\ forall node,
        In node [Demo.T] -> get_atom_intention (name node) w' = st.REVERT.
Proof.
  destruct (process_atom_failure_cases (Demo.action Demo.guarded_task) 1
              Demo.T (Fail Demo.boom) (Demo.world Demo.fresh)) as [_ H].
  destruct (H Demo.R eq_refl) as [Hretry _].
  apply Hretry; [reflexivity|].
  simpl. intros [Heq|[]]. discriminate Heq.
Defined.

(** ** Resetting nodes and scheduling a retry controller *)

Section Rearming.

Variable self : FutureGraphAction.

Lemma reset_nodes_effect (i : st.intention) (nodes : list Atom) :
  forall w,
    Forall known_kind nodes ->
    exists w',
      _reset_nodes nodes i w = (Ok tt, w')
      /\ (forall n, In n (map name nodes) ->
                    atom_state (storage w') n = st.PENDING
                    /\ atom_intention (storage w') n = i)
      /\ (forall n, ~ In n (map name nodes) ->
                    atom_state (storage w') n = atom_state (storage w) n
                    /\ atom_intention (storage w') n
                       = atom_intention (storage w) n)
      /\ flow_state (storage w') = flow_state (storage w)
      /\ pending w' = pending w
      /\ issued w' = issued w
      /\ calls w' = calls w ++ reset_calls i nodes.
Proof.
  unfold _reset_nodes.
  induction nodes as [|a nodes IH]; intros w Hknown.
  - exists w. simpl. rewrite app_nil_r. repeat split; tauto.
  - inversion Hknown as [|? ? Ha Hrest]; subst.
    assert (exists w1,
               _reset_node i a w = (Ok tt, w1)
               /\ atom_state (storage w1) (name a) = st.PENDING
               /\ atom_intention (storage w1) (name a) = i
               /\ (forall n, n <> name a ->
                             atom_state (storage w1) n
                             = atom_state (storage w) n
                             /\ atom_intention (storage w1) n
                                = atom_intention (storage w) n)
               /\ flow_state (storage w1) = flow_state (storage w)
               /\ pending w1 = pending w
               /\ issued w1 = issued w
               /\ calls w1 = calls w ++ reset_calls i [a]) as Hstep.
    { unfold _reset_node, reset_calls.
      destruct Ha as [Ha|Ha]; rewrite Ha; simpl;
        (eexists; split; [reflexivity|]); simpl; unfold upd;
        rewrite <- ?app_assoc; simpl;
        (repeat split;
         try (destruct (string_dec (name a) (name a)); congruence);
         try (destruct (string_dec (name a) n); congruence);
         try (rewrite Ha; reflexivity)). }
    destruct Hstep as (w1 & Hrun & Hs & Hi & Hother & Hf & Hp & Hq & Hc).
    destruct (IH w1 Hrest) as (w' & Hrun' & Hin & Hout & Hf' & Hp' & Hq' & Hc').
    exists w'. simpl. rewrite Hrun. split; [exact Hrun'|].
    split; [|split; [|repeat split; try congruence]].
    + intros n [Heq|Hn].
      * subst n.
        destruct (in_dec string_dec (name a) (map name nodes)) as [Hl|Hl].
        -- now apply Hin.
        -- destruct (Hout _ Hl) as [-> ->]. now split.
      * now apply Hin.
    + intros n Hn.
      destruct (Hout n) as [-> ->]; [tauto|].
      apply Hother. intros ->. tauto.
    + rewrite Hc', Hc. rewrite <- app_assoc. reflexivity.
Qed.

(** C6 (amended).  Scheduling a retry controller whose stored intention is
    RETRY first changes the state of the controller to RETRYING, then
    re-arms its subflow, which sets the intention of the controller itself
    to EXECUTE and resets every atom of the guarded subgraph (tasks and
    retry controllers, the controller not among them) to the state PENDING
    and the intention EXECUTE, and then schedules the execution of the
    controller. *)
Theorem schedule_retry_rearms :
  forall (retry : Atom) (w : World),
    get_atom_intention (name retry) w = st.RETRY ->
    Forall known_kind (iterate_subgraph (_analyzer self) retry) ->
    ~ In (name retry) (map name (iterate_subgraph (_analyzer self) retry)) ->
    exists w1,
      _retry_subflow self retry (retry_change_state retry st.RETRYING w)
      = (Ok tt, w1)
      /\ _schedule_retry self retry w = retry_execute self retry w1
      /\ calls w1
         = calls w
           ++ [retry_action_change_state retry st.RETRYING;
               storage_set_atom_intention (name retry) st.EXECUTE]
           ++ reset_calls st.EXECUTE (iterate_subgraph (_analyzer self) retry)
      /\ calls (snd (retry_execute self retry w1))
         = calls w1 ++ [retry_action_execute retry]
      /\ get_state retry w1 = st.RETRYING
      /\ get_atom_intention (name retry) w1 = st.EXECUTE
      /\ forall node,
          In node (iterate_subgraph (_analyzer self) retry) ->
          get_state node w1 = st.PENDING
          /\ get_atom_intention (name node) w1 = st.EXECUTE.
Proof.
  intros retry w Hretry Hknown Hout.
  unfold _retry_subflow.
  destruct (reset_nodes_effect st.EXECUTE _
              (set_atom_intention (name retry) st.EXECUTE
                 (retry_change_state retry st.RETRYING w)) Hknown)
    as (w1 & Hrun & Hin & Hother & _ & _ & _ & Hc).
  exists w1. split; [exact Hrun|].
  split.
  { unfold _schedule_retry. rewrite Hretry.
    unfold _retry_subflow. now rewrite Hrun. }
  split.
  { rewrite Hc. simpl. rewrite <- !app_assoc. reflexivity. }
  split.
  { unfold retry_execute, submit.
    destruct (snd (execute_response (_retry_action self) retry w1));
      reflexivity. }
  destruct (Hother _ Hout) as [Hs Hi].
  split; [|split].
  - unfold get_state. rewrite Hs. simpl. unfold upd.
    destruct (string_dec (name retry) (name retry)); congruence.
  - unfold get_atom_intention. rewrite Hi. simpl. unfold upd.
    destruct (string_dec (name retry) (name retry)); congruence.
  - intros node Hnode.
    unfold get_state, get_atom_intention.
    apply Hin. now apply in_map.
Qed.

End Rearming.

Lemma schedule_retry_rearms_witness :
  exists w1,
    _retry_subflow (Demo.action Demo.guarded_task) Demo.R
      (retry_change_state Demo.R st.RETRYING (Demo.world Demo.retrying))
    = (Ok tt, w1)
    /\ get_state Demo.R w1 = st.RETRYING
    /\ get_atom_intention "R" w1 = st.EXECUTE
    /\ get_state Demo.T w1 = st.PENDING
    /\ get_atom_intention "T" w1 = st.EXECUTE.
Proof.
  destruct (schedule_retry_rearms (Demo.action Demo.guarded_task) Demo.R
              (Demo.world Demo.retrying)) as (w1 & Hrun & _ & _ & _ & Hs & Hi & Hsub).
  - reflexivity.
  - repeat constructor.
  - simpl. intros [Heq|[]]. discriminate Heq.
  - exists w1. destruct (Hsub Demo.T (or_introl eq_refl)) as [HT1 HT2].
    repeat split; assumption.
Defined.

(** C6 as stated fails: re-arming resets the intention of the controller
    itself.  The controller [R] goes from RETRY to EXECUTE, both before its
    execution is scheduled and after. *)
Lemma schedule_retry_keeps_intention_counterexample :
  get_atom_intention "R" (Demo.world Demo.retrying) = st.RETRY
  /\ get_atom_intention "R"
       (snd (_retry_subflow (Demo.action Demo.guarded_task) Demo.R
               (retry_change_state Demo.R st.RETRYING
                  (Demo.world Demo.retrying))))
     <> get_atom_intention "R" (Demo.world Demo.retrying)
  /\ exists f w',
      _schedule_retry (Demo.action Demo.guarded_task) Demo.R
        (Demo.world Demo.retrying) = (Ok f, w')
      /\ get_atom_intention "R" w' = st.EXECUTE.
Proof.
  split; [reflexivity|].
  split; [vm_compute; discriminate|].
  eexists. eexists. split; reflexivity.
Defined.

(** ** Scheduling a batch *)

Section Scheduling.

Variable self : FutureGraphAction.

(** Whatever [_schedule_node] raises, [_schedule] turns into the one failure
    of the batch, keeps the futures obtained so far and leaves the other
    nodes alone. *)
Lemma schedule_loop_captures (futures : list Future) (node : Atom)
  (rest : list Atom) (w w1 : World) (e : Exn) :
  _schedule_node self node w = (Raised e, w1) ->
  _schedule_loop self futures (node :: rest) w
  = ((futures, [mkFailure e]), w1).
Proof. intros H. simpl. now rewrite H. Qed.

(** C7 (amended).  The internal-consistency errors (a node that is neither
    a task nor a retry controller, an atom whose stored intention is not
    one the driver schedules) are raised by [_schedule_node], and
    [_schedule] captures them like any other exception of
    [_schedule_node]: it returns the futures obtained so far together with
    the error as the single failure of the batch, and schedules none of
    the remaining nodes. *)
Theorem schedule_captures_consistency_errors :
  forall (futures : list Future) (node : Atom) (rest : list Atom)
         (w : World),
    (kind node = Neither ->
     exists msg,
       _schedule_node self node w = (Raised (TypeError msg), w)
       /\ _schedule_loop self futures (node :: rest) w
          = ((futures, [mkFailure (TypeError msg)]), w))
    /\ (forall v,
          known_kind node ->
          get_atom_intention (name node) w = st.UNRECOGNIZED v ->
          exists msg,
            _schedule_node self node w = (Raised (ExecutionFailure msg), w)
            /\ _schedule_loop self futures (node :: rest) w
               = ((futures, [mkFailure (ExecutionFailure msg)]), w))
    /\ (kind node = BaseTask ->
        get_atom_intention (name node) w = st.RETRY ->
        exists msg,
          _schedule_node self node w = (Raised (ExecutionFailure msg), w)
          /\ _schedule_loop self futures (node :: rest) w
             = ((futures, [mkFailure (ExecutionFailure msg)]), w))
    /\ (forall e w1,
          _schedule_node self node w = (Raised e, w1) ->
          _schedule_loop self futures (node :: rest) w
          = ((futures, [mkFailure e]), w1)).
Proof.
  intros futures node rest w.
  split; [|split; [|split]].
  - intros Hkind. eexists.
    assert (H : _schedule_node self node w
                = (Raised (TypeError ("Unknown how to schedule node "
                                        ++ name node)), w)).
    { unfold _schedule_node. now rewrite Hkind. }
    split; [exact H|]. now apply schedule_loop_captures.
  - intros v [Hkind|Hkind] Hint; eexists.
    + assert (H : _schedule_node self node w
                  = (Raised (ExecutionFailure
                               ("Unknown how to schedule task with intention: "
                                  ++ v)), w)).
      { unfold _schedule_node, _schedule_task. now rewrite Hkind, Hint. }
      split; [exact H|]. now apply schedule_loop_captures.
    + assert (H : _schedule_node self node w
                  = (Raised (ExecutionFailure
                               ("Unknown how to schedule retry with intention: "
                                  ++ v)), w)).
      { unfold _schedule_node, _schedule_retry. now rewrite Hkind, Hint. }
      split; [exact H|]. now apply schedule_loop_captures.
  - intros Hkind Hint. eexists.
    assert (H : _schedule_node self node w
                = (Raised (ExecutionFailure
                             ("Unknown how to schedule task with intention: "
                                ++ "RETRY")), w)).
    { unfold _schedule_node, _schedule_task. now rewrite Hkind, Hint. }
    split; [exact H|]. now apply schedule_loop_captures.
  - intros e w1. apply schedule_loop_captures.
Qed.

End Scheduling.

Lemma schedule_captures_consistency_errors_witness :
  exists msg,
    _schedule_node (Demo.action Demo.unknown_node) Demo.X
      (Demo.world Demo.fresh)
    = (Raised (TypeError msg), Demo.world Demo.fresh)
    /\ _schedule_loop (Demo.action Demo.unknown_node) [] [Demo.X; Demo.A]
         (Demo.world Demo.fresh)
       = (([], [mkFailure (TypeError msg)]), Demo.world Demo.fresh).
Proof.
  destruct (schedule_captures_consistency_errors
              (Demo.action Demo.unknown_node) [] Demo.X [Demo.A]
              (Demo.world Demo.fresh)) as [H _].
  apply H. reflexivity.
Defined.

(** C7 as stated fails: the node [X], neither a task nor a retry
    controller, does not make the scheduling step raise.  [_schedule]
    returns the future of [A] and the error as a captured failure, and the
    generator goes on to wait for [A]. *)
Lemma unknown_node_propagates_counterexample :
  kind Demo.X = Neither
  /\ exists f w',
      _schedule (Demo.action Demo.unknown_node) [Demo.A; Demo.X]
        (Demo.world Demo.fresh)
      = (([f], [mkFailure (TypeError "Unknown how to schedule node X")]), w')
      /\ next (Demo.action Demo.unknown_node) Demo.limit
           (at_first_SCHEDULING 60 [Demo.A; Demo.X]) (Demo.world Demo.fresh)
         = Yield st.WAITING
                 (at_WAITING 60 [f]
                    [mkFailure (TypeError "Unknown how to schedule node X")])
                 w'.
Proof.
  split; [reflexivity|].
  eexists. eexists. split; reflexivity.
Defined.

(** ** The analyzing step *)

Section Analyzing.

Variable self : FutureGraphAction.
Variable recursion_limit : nat.

Lemma filter_app_nothing {A : Type} (p : A -> bool) (l new : list A) :
  forallb (fun c => negb (p c)) new = true ->
  filter p (l ++ new) = filter p l.
Proof.
  intros H. rewrite filter_app.
  replace (filter p new) with (@nil A); [now rewrite app_nil_r|].
  induction new as [|c new IH]; simpl in *; [reflexivity|].
  apply andb_prop in H. destruct H as [Hc Hnew].
  destruct (p c); [discriminate|]. now apply IH.
Qed.

Lemma escalation_calls_are_no_queries (new : list Call) :
  forallb escalation_call new = true ->
  forallb (fun c => negb (successor_query c)) new = true.
Proof.
  induction new as [|c new IH]; simpl; [reflexivity|].
  intros H. apply andb_prop in H. destruct H as [Hc Hnew].
  rewrite IH by assumption.
  destruct c; try discriminate; reflexivity.
Qed.

(** The body of the [try] asks for no successors and hands out or retires
    no future. *)
Lemma analyze_try_effect (future : Future) (failures : list Failure)
  (w : World) :
  let w1 := snd (analyze_try self recursion_limit future failures w) in
  filter successor_query (calls w1) = filter successor_query (calls w)
  /\ pending w1 = pending w.
Proof.
  unfold analyze_try, result.
  destruct (result_response (_task_action self) future w) as [res|e];
    [|simpl; split; [now apply filter_app_nothing|reflexivity]].
  set (w1 := called (future_result future) w).
  assert (H1 : filter successor_query (calls w1)
               = filter successor_query (calls w) /\ pending w1 = pending w).
  { split; [now apply filter_app_nothing|reflexivity]. }
  destruct H1 as [H1 P1].
  assert (exists r2 w2,
             match kind (fut_node future) with
             | BaseTask =>
                 _complete_task self (fut_node future) (fut_event future)
                                res w1
             | _ => (Ok tt, w1)
             end = (r2, w2)
             /\ filter successor_query (calls w2)
                = filter successor_query (calls w)
             /\ pending w2 = pending w) as (r2 & w2 & -> & H2 & P2).
  { destruct (kind (fut_node future));
      try (exists (Ok tt), w1; now repeat split).
    unfold _complete_task, complete_execution, complete_reversion, persist.
    destruct (fut_event future);
      (eexists; eexists; split; [reflexivity|]); simpl;
      (split; [|exact P1]);
      rewrite <- H1; now apply filter_app_nothing. }
  destruct r2 as [[]|e]; [|now split].
  destruct res as [v|f]; [now split|].
  destruct (fut_event future); [|now split].
  destruct (process_atom_failure_effect self recursion_limit
              (fut_node future) (Fail f) w2)
    as (_ & _ & _ & _ & Hp & _ & new & Hc & Hall).
  destruct (_process_atom_failure self recursion_limit (fut_node future)
              (Fail f) w2) as [[[]|e] w3]; simpl in *;
    (split; [|congruence]);
    rewrite Hc, <- H2;
    apply filter_app_nothing; now apply escalation_calls_are_no_queries.
Qed.



End Analyzing.



(** ** After the analyzing step *)

Section Rescheduling.

Variable self : FutureGraphAction.
Variable recursion_limit : nat.

Local Abbreviation analyze_try' := (analyze_try self recursion_limit).
Local Abbreviation analyze_future' := (analyze_future self recursion_limit).
Local Abbreviation analyze' := (analyze self recursion_limit).
Local Abbreviation next' := (next self recursion_limit).

(** [failures] only grows: what a step finds is appended to what the run
    had accumulated before. *)
Lemma analyze_try_appends (future : Future) (failures : list Failure)
  (w : World) :
  analyze_try' future failures w
  = let '(res, batch, w1) := analyze_try' future [] w in
    (res, failures ++ batch, w1).
Proof.
  unfold analyze_try.
  repeat match goal with
         | |- context [match ?x with _ => _ end] => destruct x
         end; rewrite ?app_nil_r; reflexivity.
Qed.

Lemma analyze_future_appends (future : Future) (next_nodes : list Atom)
  (failures : list Failure) (w : World) :
  analyze_future' future next_nodes failures w
  = let '(nodes, batch, w1) := analyze_future' future next_nodes [] w in
    (nodes, failures ++ batch, w1).
Proof.
  unfold analyze_future.
  rewrite (analyze_try_appends future failures w).
  destruct (analyze_try' future [] w) as [[[node|e] batch] w1].
  - destruct (get_next_nodes self (Some node) w1) as [[more|e] w2];
      simpl; rewrite ?app_assoc; reflexivity.
  - simpl. rewrite app_assoc. reflexivity.
Qed.

Lemma analyze_appends (done : list Future) :
  forall next_nodes failures w,
    analyze' done next_nodes failures w
    = let '(nodes, batch, w1) := analyze' done next_nodes [] w in
      (nodes, failures ++ batch, w1).
Proof.
  induction done as [|future done IH]; intros next_nodes failures w; simpl.
  - now rewrite app_nil_r.
  - rewrite (analyze_future_appends future next_nodes failures w).
    destruct (analyze_future' future next_nodes [] w) as [[nodes1 batch1] w1].
    rewrite (IH nodes1 (failures ++ batch1) w1).
    rewrite (IH nodes1 batch1 w1).
    destruct (analyze' done nodes1 [] w1) as [[nodes batch] w2].
    now rewrite app_assoc.
Qed.

Lemma while_not_done_never_schedules (timeout : nat)
  (not_done : list Future) (failures : list Failure) (w : World) (g : Gen)
  (w' : World) :
  while_not_done self timeout not_done failures w
  <> Yield st.SCHEDULING g w'.
Proof.
  unfold while_not_done, conclude.
  destruct not_done; [|discriminate].
  destruct failures as [|f [|f' failures]]; simpl; try discriminate.
  destruct (get_next_nodes_answer (_analyzer self) None w) as [[|]|];
    try discriminate.
  destruct (is_success (_analyzer self) _); discriminate.
Qed.

(** C8 (amended).  After an analyzing step a scheduling step is entered
    exactly when the successor set is not empty, no failure has been
    accumulated so far in the run (neither before this analyzing step nor
    by it) and the flow is RUNNING; otherwise the loop goes on with the
    futures that remain, nothing scheduled.  When the generator is resumed
    after the SCHEDULING marker the state of the flow is read again, and
    nothing is scheduled unless the flow is still RUNNING. *)
Theorem rescheduling_condition :
  forall (timeout : nat) (done not_done : list Future)
         (failures : list Failure) (w : World),
  exists (next_nodes : list Atom) (batch : list Failure) (w1 : World),
    analyze' done [] [] w = (next_nodes, batch, w1)
    /\ ((exists g w',
            next' (at_ANALYZING timeout done not_done failures) w
            = Yield st.SCHEDULING g w')
        <-> (next_nodes <> [] /\ failures ++ batch = []
             /\ is_running w1 = true))
    /\ (next_nodes <> [] /\ failures ++ batch = [] /\ is_running w1 = true ->
        next' (at_ANALYZING timeout done not_done failures) w
        = Yield st.SCHEDULING
                (at_SCHEDULING timeout next_nodes not_done []) w1)
    /\ (~ (next_nodes <> [] /\ failures ++ batch = []
           /\ is_running w1 = true) ->
        next' (at_ANALYZING timeout done not_done failures) w
        = while_not_done self timeout not_done (failures ++ batch) w1)
    /\ (forall nodes (w2 : World),
          is_running w2 = false ->
          next' (at_SCHEDULING timeout nodes not_done []) w2
          = while_not_done self timeout not_done [] w2)
    /\ (forall nodes (w2 : World),
          is_running w2 = true ->
          next' (at_SCHEDULING timeout nodes not_done []) w2
          = while_not_done self timeout
              (update_futures not_done (fst (fst (_schedule self nodes w2))))
              (snd (fst (_schedule self nodes w2)))
              (snd (_schedule self nodes w2))).
Proof.
  intros timeout done not_done failures w.
  destruct (analyze' done [] [] w) as [[next_nodes batch] w1] eqn:Hbatch.
  exists next_nodes, batch, w1.
  split; [reflexivity|].
  assert (Hnext :
            next' (at_ANALYZING timeout done not_done failures) w
            = if nonempty next_nodes && empty (failures ++ batch)
                 && is_running w1
              then Yield st.SCHEDULING
                     (at_SCHEDULING timeout next_nodes not_done
                        (failures ++ batch)) w1
              else while_not_done self timeout not_done
                     (failures ++ batch) w1).
  { simpl. rewrite (analyze_appends done [] failures w), Hbatch.
    reflexivity. }
  assert (Hcond :
            nonempty next_nodes && empty (failures ++ batch)
            && is_running w1 = true
            <-> (next_nodes <> [] /\ failures ++ batch = []
                 /\ is_running w1 = true)).
  { rewrite !andb_true_iff. unfold empty.
    destruct next_nodes, (failures ++ batch); simpl;
      intuition congruence. }
  split; [|split; [|split; [|split]]].
  - rewrite Hnext. split.
    + intros (g & w' & H).
      apply Hcond.
      destruct (bool_dec (nonempty next_nodes && empty (failures ++ batch)
                          && is_running w1) true) as [E|E]; [exact E|].
      apply not_true_is_false in E. rewrite E in H.
      now apply while_not_done_never_schedules in H.
    + intros H. apply Hcond in H. rewrite H. eauto.
  - intros H. rewrite Hnext.
    destruct H as (Hn & He & Hr).
    replace (nonempty next_nodes && empty (failures ++ batch)
             && is_running w1) with true
      by (symmetry; apply Hcond; tauto).
    now rewrite He.
  - intros H. rewrite Hnext.
    destruct (bool_dec (nonempty next_nodes && empty (failures ++ batch)
                        && is_running w1) true) as [E|E].
    + apply Hcond in E. contradiction.
    + apply not_true_is_false in E. now rewrite E.
  - intros nodes w2 Hstop. simpl. now rewrite Hstop.
  - intros nodes w2 Hrun. simpl. rewrite Hrun.
    destruct (_schedule self nodes w2) as [[more failures1] w3].
    reflexivity.
Qed.


End Rescheduling.

Lemma rescheduling_condition_witness :
  exists next_nodes w1,
    next (Demo.action Demo.late_failure) Demo.limit
      (at_ANALYZING 60 [mkFuture 0 Demo.A ex.EXECUTED] [] [])
      (Demo.world Demo.fresh)
    = Yield st.SCHEDULING (at_SCHEDULING 60 next_nodes [] []) w1.
Proof.
  destruct (rescheduling_condition (Demo.action Demo.late_failure) Demo.limit
              60 [mkFuture 0 Demo.A ex.EXECUTED] [] [] (Demo.world Demo.fresh))
    as (next_nodes & batch & w1 & Hbatch & _ & Henter & _).
  exists next_nodes, w1.
  apply Henter.
  vm_compute in Hbatch.
  injection Hbatch as <- <- <-.
  split; [discriminate|].
  split; reflexivity.
Defined.

(** C8 as stated fails.  In this run [B] failed in an earlier analyzing
    step; the analyzing step that handles [C] records no failure, finds the
    successor [D] and the flow is RUNNING, yet no scheduling step follows:
    the loop ends and the earlier failure is raised. *)
Lemma failure_free_batch_schedules_counterexample :
  exists done w,
    run (Demo.action Demo.late_failure) Demo.limit Demo.nobody 9 None
        (Demo.world Demo.fresh)
    = Suspended
        [st.RESUMING; st.SCHEDULING; st.WAITING; st.ANALYZING; st.SCHEDULING;
         st.WAITING; st.ANALYZING; st.WAITING; st.ANALYZING]
        (at_ANALYZING 60 done [] [mkFailure (Exception "boom")]) w
    /\ (exists w1,
           analyze (Demo.action Demo.late_failure) Demo.limit done [] [] w
           = ([Demo.D], [], w1)
           /\ is_running w1 = true
           /\ next (Demo.action Demo.late_failure) Demo.limit
                (at_ANALYZING 60 done [] [mkFailure (Exception "boom")]) w
              = Raise (Raising (Exception "boom")) w1).
Proof.
  eexists. eexists. split; [vm_compute; reflexivity|].
  eexists. split; [vm_compute; reflexivity|].
  split; vm_compute; reflexivity.
Defined.


(** ** Runs of the generator *)

Section Runs.

Variable self : FutureGraphAction.
Variable recursion_limit : nat.
Variable others : nat -> Storage -> Storage.

Local Abbreviation next' := (next self recursion_limit).
Local Abbreviation iterate' := (iterate self recursion_limit others).

(** A property of the suspended generator that survives the writes of the
    others and every resumption holds all along a run; what it implies
    when the generator raises or returns holds at the end. *)
Lemma iterate_invariant
  (P : list st.state -> Gen -> World -> Prop)
  (F : list st.state -> World -> Prop)
  (R : list st.state -> World -> Prop) :
  (forall ms g w k, P ms g w -> P ms g (interfere others k w)) ->
  (forall ms g w m g' w',
      P ms g w -> next' g w = Yield m g' w' -> P (ms ++ [m]) g' w') ->
  (forall ms g w e w', P ms g w -> next' g w = Raise e w' -> F ms w') ->
  (forall ms g w w', P ms g w -> next' g w = StopIteration w' -> R ms w') ->
  forall n ms g w,
    P ms g w ->
    match iterate' n ms g w with
    | Suspended ms' g' w' => P ms' g' w'
    | Failed ms' _ w' => F ms' w'
    | Returned ms' w' => R ms' w'
    end.
Proof.
  intros Henv Hyield Hraise Hstop.
  induction n as [|n IH]; intros ms g w HP; simpl; [exact HP|].
  specialize (Henv ms g w (List.length ms) HP).
  destruct (next' g (interfere others (List.length ms) w))
    as [m g' w'|e w'|w'] eqn:Hnext.
  - apply IH. exact (Hyield _ _ _ _ _ _ Henv Hnext).
  - exact (Hraise _ _ _ _ _ Henv Hnext).
  - exact (Hstop _ _ _ _ Henv Hnext).
Qed.

(** *** The order of the markers *)

Lemma while_not_done_shape (timeout : nat) (not_done : list Future)
  (failures : list Failure) (w : World) (body : list st.state) :
  turns body ->
  forall m g' w',
    while_not_done self timeout not_done failures w = Yield m g' w' ->
    shape g' (([st.RESUMING; st.SCHEDULING] ++ body) ++ [m]).
Proof.
  intros Hbody m g' w'.
  unfold while_not_done, conclude.
  destruct not_done as [|f not_done].
  - destruct failures as [|f1 [|f2 failures]]; simpl; try discriminate.
    destruct (get_next_nodes_answer (_analyzer self) None w) as [[|a l]|e];
      try discriminate;
      [destruct (is_success (_analyzer self) _)|];
      intros H; injection H as <- <- <-;
      exists body; eexists;
      (split; [reflexivity|split; [assumption|]]);
      unfold terminal; tauto.
  - intros H; injection H as <- <- <-.
    exists body. split; [assumption|reflexivity].
Qed.

Lemma next_shape (ms : list st.state) (g : Gen) (w : World) :
  shape g ms ->
  forall m g' w', next' g w = Yield m g' w' -> shape g' (ms ++ [m]).
Proof.
  destruct g as [timeout|timeout|timeout next_nodes|timeout not_done failures
                 |timeout done not_done failures
                 |timeout next_nodes not_done failures|];
    cbn [next shape]; intros Hshape m g' w'.
  - intros H; injection H as <- <- <-. now subst ms.
  - destruct (_prepare_flow_for_resume self recursion_limit w)
      as [[next_nodes|e] w1]; [|discriminate].
    destruct (get_next_nodes self None w1) as [[more|e] w2]; [|discriminate].
    intros H; injection H as <- <- <-. now subst ms.
  - subst ms.
    destruct (is_running w).
    + destruct (_schedule self next_nodes w) as [[not_done failures] w1].
      apply (while_not_done_shape _ _ _ _ _ turns_none).
    + apply (while_not_done_shape _ _ _ _ _ turns_none).
  - destruct Hshape as (body & Hbody & ->).
    destruct (wait_for_any self not_done timeout w) as [[done not_done'] w1].
    intros H; injection H as <- <- <-.
    exists body. split; [assumption|].
    rewrite <- !app_assoc. reflexivity.
  - destruct Hshape as (body & Hbody & ->).
    destruct (analyze self recursion_limit done [] failures w)
      as [[next_nodes failures1] w1].
    destruct (nonempty next_nodes && empty failures1 && is_running w1).
    + intros H; injection H as <- <- <-.
      exists body. split; [assumption|].
      rewrite <- !app_assoc. reflexivity.
    + rewrite app_assoc.
      apply while_not_done_shape.
      rewrite <- (app_nil_l (body ++ _)) at 1. simpl.
      now apply turns_wait.
  - destruct Hshape as (body & Hbody & ->).
    rewrite app_assoc.
    destruct (is_running w).
    + destruct (_schedule self next_nodes w) as [[more failures1] w1].
      apply while_not_done_shape. now apply turns_wait_schedule.
    + apply while_not_done_shape. now apply turns_wait_schedule.
  - discriminate.
Qed.

Lemma turns_not_terminal (body : list st.state) :
  turns body -> forall m, In m body -> ~ terminal m.
Proof.
  induction 1 as [|ms Hms IH|ms Hms IH]; simpl; intros m Hin; [tauto| |];
    apply in_app_or in Hin; destruct Hin as [Hin|Hin];
    try (now apply IH);
    simpl in Hin; intros [E|[E|E]]; subst m;
    repeat (destruct Hin as [Hin|Hin]; try discriminate Hin); exact Hin.
Qed.

Lemma shape_not_terminal (g : Gen) (ms : list st.state) :
  shape g ms -> g <> at_terminal -> forall m, In m ms -> ~ terminal m.
Proof.
  assert (Hhead : forall body tail m,
             turns body ->
             (forall x, In x tail -> ~ terminal x) ->
             In m ([st.RESUMING; st.SCHEDULING] ++ body ++ tail) ->
             ~ terminal m).
  { intros body tail m Hbody Htail Hin.
    simpl in Hin. destruct Hin as [<-|[<-|Hin]].
    - intros [E|[E|E]]; discriminate E.
    - intros [E|[E|E]]; discriminate E.
    - apply in_app_or in Hin. destruct Hin as [Hin|Hin].
      + now apply (turns_not_terminal body Hbody).
      + now apply Htail. }
  assert (Hlist : forall (l : list st.state) x,
             forallb (fun y => negb (st.eqb y st.SUSPENDED
                                     || st.eqb y st.SUCCESS
                                     || st.eqb y st.REVERTED)) l = true ->
             In x l -> ~ terminal x).
  { induction l as [|y l IH]; simpl; intros x Hall Hin; [tauto|].
    apply andb_prop in Hall. destruct Hall as [Hy Hl].
    destruct Hin as [<-|Hin]; [|now apply IH].
    intros [E|[E|E]]; subst y; discriminate Hy. }
  destruct g; simpl; intros Hshape Hg m Hin; try congruence.
  - subst ms. destruct Hin.
  - subst ms. now apply (Hlist [st.RESUMING]).
  - subst ms. now apply (Hlist [st.RESUMING; st.SCHEDULING]).
  - destruct Hshape as (body & Hbody & ->).
    apply (Hhead body [st.WAITING] m Hbody); [|exact Hin].
    intros x. now apply Hlist.
  - destruct Hshape as (body & Hbody & ->).
    apply (Hhead body [st.WAITING; st.ANALYZING] m Hbody); [|exact Hin].
    intros x. now apply Hlist.
  - destruct Hshape as (body & Hbody & ->).
    apply (Hhead body [st.WAITING; st.ANALYZING; st.SCHEDULING] m Hbody);
      [|exact Hin].
    intros x. now apply Hlist.
Qed.

Lemma stop_only_at_terminal (g : Gen) (w w' : World) :
  next' g w = StopIteration w' -> g = at_terminal.
Proof.
  destruct g as [timeout|timeout|timeout next_nodes|timeout not_done failures
                 |timeout done not_done failures
                 |timeout next_nodes not_done failures|];
    cbn [next]; try discriminate; try reflexivity.
  - destruct (_prepare_flow_for_resume self recursion_limit w)
      as [[next_nodes|e] w1]; [|discriminate].
    destruct (get_next_nodes self None w1) as [[more|e] w2]; discriminate.
  - assert (H : forall t nd fs w0,
               while_not_done self t nd fs w0 <> StopIteration w').
    { intros t nd fs w0. unfold while_not_done, conclude.
      destruct nd; [|discriminate].
      destruct fs as [|f1 [|f2 fs]]; simpl; try discriminate.
      destruct (get_next_nodes_answer (_analyzer self) None w0) as [[|]|];
        try discriminate.
      destruct (is_success (_analyzer self) _); discriminate. }
    destruct (is_running w);
      [destruct (_schedule self next_nodes w) as [[nd fs] w1]|];
      intros E; now apply H in E.
  - assert (H : forall t nd fs w0,
               while_not_done self t nd fs w0 <> StopIteration w').
    { intros t nd fs w0. unfold while_not_done, conclude.
      destruct nd; [|discriminate].
      destruct fs as [|f1 [|f2 fs]]; simpl; try discriminate.
      destruct (get_next_nodes_answer (_analyzer self) None w0) as [[|]|];
        try discriminate.
      destruct (is_success (_analyzer self) _); discriminate. }
    destruct (analyze self recursion_limit done [] failures w)
      as [[next_nodes failures1] w1].
    destruct (nonempty next_nodes && empty failures1 && is_running w1);
      [discriminate|].
    intros E; now apply H in E.
  - assert (H : forall t nd fs w0,
               while_not_done self t nd fs w0 <> StopIteration w').
    { intros t nd fs w0. unfold while_not_done, conclude.
      destruct nd; [|discriminate].
      destruct fs as [|f1 [|f2 fs]]; simpl; try discriminate.
      destruct (get_next_nodes_answer (_analyzer self) None w0) as [[|]|];
        try discriminate.
      destruct (is_success (_analyzer self) _); discriminate. }
    destruct (is_running w);
      [destruct (_schedule self next_nodes w) as [[nd fs] w1]|];
      intros E; now apply H in E.
Qed.

(** C2.  The markers of a run that returns are RESUMING, SCHEDULING, then
    any number of turns WAITING, ANALYZING, optionally SCHEDULING, then one
    terminal marker (SUSPENDED, SUCCESS or REVERTED), which is the last
    marker and the only terminal one.  A run that is still going has
    yielded a prefix of that pattern, and a run that raised has yielded no
    terminal marker. *)
Theorem progress_marker_order :
  forall (n : nat) (timeout : option nat) (w : World),
    match run self recursion_limit others n timeout w with
    | Returned ms _ =>
        progress_sequence ms
        /\ forall m, In m (removelast ms) -> ~ terminal m
    | Suspended ms g _ => shape g ms
    | Failed ms _ _ => forall m, In m ms -> ~ terminal m
    end.
Proof.
  intros n timeout w. unfold run.
  apply (iterate_invariant
           (fun ms g _ => shape g ms)
           (fun ms _ => forall m, In m ms -> ~ terminal m)
           (fun ms _ => progress_sequence ms
                        /\ forall m, In m (removelast ms) -> ~ terminal m)).
  - intros ms g w0 k H. exact H.
  - intros ms g w0 m g' w' H Hnext. exact (next_shape ms g w0 H m g' w' Hnext).
  - intros ms g w0 e w' H Hnext.
    apply (shape_not_terminal g ms H).
    intros ->. discriminate Hnext.
  - intros ms g w0 w' H Hnext.
    apply stop_only_at_terminal in Hnext. subst g.
    split; [exact H|].
    destruct H as (body & last & -> & Hbody & Hlast).
    change ([st.RESUMING; st.SCHEDULING] ++ body ++ [last])
      with ((st.RESUMING :: st.SCHEDULING :: body) ++ [last]).
    rewrite removelast_last.
    intros m Hin.
    simpl in Hin. destruct Hin as [<-|[<-|Hin]].
    + intros [E|[E|E]]; discriminate E.
    + intros [E|[E|E]]; discriminate E.
    + exact (turns_not_terminal body Hbody m Hin).
  - reflexivity.
Qed.

End Runs.

Lemma progress_marker_order_witness :
  match run (Demo.action Demo.two_tasks) Demo.limit Demo.nobody 6 None
            (Demo.world Demo.fresh) with
  | Returned ms _ =>
      ms = [st.RESUMING; st.SCHEDULING; st.WAITING; st.ANALYZING; st.SUCCESS]
      /\ progress_sequence ms
  | _ => False
  end.
Proof.
  generalize (progress_marker_order (Demo.action Demo.two_tasks) Demo.limit
                Demo.nobody 6 None (Demo.world Demo.fresh)).
  destruct (run (Demo.action Demo.two_tasks) Demo.limit Demo.nobody 6 None
                (Demo.world Demo.fresh)) as [ms g w|ms e w|ms w] eqn:E;
    vm_compute in E; try discriminate E.
  injection E as <- <-.
  intros [H _]. split; [reflexivity|exact H].
Defined.

(** ** Futures in flight *)

Section Futures.

Variable self : FutureGraphAction.
Variable recursion_limit : nat.

Local Abbreviation next' := (next self recursion_limit).

Lemma update_futures_in (more : list Future) :
  forall s f, In f (update_futures s more) <-> In f s \/ In f more.
Proof.
  unfold update_futures.
  induction more as [|x more IH]; simpl; intros s f; [tauto|].
  rewrite IH. unfold add_future. rewrite set_add_iff. intuition congruence.
Qed.

Lemma update_futures_nodup (more : list Future) :
  forall s, NoDup s -> NoDup (update_futures s more).
Proof.
  unfold update_futures.
  induction more as [|x more IH]; simpl; intros s Hs; [assumption|].
  apply IH. now apply set_add_nodup.
Qed.

Lemma update_nodes_in (more : list Atom) :
  forall s a, In a (update_nodes s more) <-> In a s \/ In a more.
Proof.
  unfold update_nodes.
  induction more as [|x more IH]; simpl; intros s a; [tauto|].
  rewrite IH. unfold add_node. rewrite set_add_iff. intuition congruence.
Qed.

Lemma update_nodes_nodup (more : list Atom) :
  forall s, NoDup s -> NoDup (update_nodes s more).
Proof.
  unfold update_nodes.
  induction more as [|x more IH]; simpl; intros s Hs; [assumption|].
  apply IH. now apply set_add_nodup.
Qed.

(** *** What leaves the pending futures alone *)

Lemma for_each_pending {A : Type} (body : A -> World -> Exc unit * World) :
  (forall a w, pending (snd (body a w)) = pending w) ->
  forall l w, pending (snd (for_each body l w)) = pending w.
Proof.
  intros Hbody. induction l as [|a l IH]; intros w; simpl; [reflexivity|].
  specialize (Hbody a w).
  destruct (body a w) as [[[]|e] w1]; simpl in *; [|assumption].
  now rewrite IH.
Qed.

Lemma reset_nodes_pending (nodes : list Atom) (i : st.intention) (w : World) :
  pending (snd (_reset_nodes nodes i w)) = pending w.
Proof.
  unfold _reset_nodes. apply for_each_pending.
  intros a w0. unfold _reset_node. destruct (kind a); reflexivity.
Qed.

Lemma retry_subflow_pending (retry : Atom) (w : World) :
  pending (snd (_retry_subflow self retry w)) = pending w.
Proof. unfold _retry_subflow. now rewrite reset_nodes_pending. Qed.

Lemma process_atom_failure_pending (depth : nat) (atom : Atom)
  (failure : Result) (w : World) :
  pending (snd (_process_atom_failure self depth atom failure w)) = pending w.
Proof. apply (process_atom_failure_effect self depth atom failure w). Qed.

Lemma prepare_flow_for_resume_pending (w : World) :
  pending (snd (_prepare_flow_for_resume self recursion_limit w)) = pending w.
Proof.
  unfold _prepare_flow_for_resume.
  match goal with
  | |- context [for_each ?body ?l w] =>
      assert (H1 : pending (snd (for_each body l w)) = pending w);
      [|destruct (for_each body l w) as [[[]|e] w1]; simpl in *;
        [|assumption]]
  end.
  { apply for_each_pending. intros a w0.
    destruct (st.eqb (get_state a w0) st.FAILURE); [|reflexivity].
    apply process_atom_failure_pending. }
  match goal with
  | |- context [for_each ?body ?l w1] =>
      assert (H2 : pending (snd (for_each body l w1)) = pending w1);
      [|destruct (for_each body l w1) as [[[]|e] w2]; simpl in *; congruence]
  end.
  apply for_each_pending. intros a w0. apply retry_subflow_pending.
Qed.

Lemma analyze_try_pending (future : Future) (failures : list Failure)
  (w : World) :
  pending (snd (analyze_try self recursion_limit future failures w))
  = pending w.
Proof. apply (analyze_try_effect self recursion_limit future failures w). Qed.

Lemma analyze_future_pending (future : Future) (next_nodes : list Atom)
  (failures : list Failure) (w : World) :
  pending (snd (analyze_future self recursion_limit future next_nodes
                  failures w))
  = pending w.
Proof.
  unfold analyze_future.
  generalize (analyze_try_pending future failures w).
  destruct (analyze_try self recursion_limit future failures w)
    as [[[node|e] failures1] w1]; simpl; intros H; [|assumption].
  destruct (get_next_nodes_answer (_analyzer self) (Some node) w1);
    simpl; assumption.
Qed.

Lemma analyze_pending (done : list Future) :
  forall next_nodes failures w,
    pending (snd (analyze self recursion_limit done next_nodes failures w))
    = pending w.
Proof.
  induction done as [|future done IH]; intros next_nodes failures w; simpl;
    [reflexivity|].
  generalize (analyze_future_pending future next_nodes failures w).
  destruct (analyze_future self recursion_limit future next_nodes failures w)
    as [[nodes1 failures1] w1]; simpl; intros H.
  now rewrite IH.
Qed.

(** *** Scheduling hands out one future for the node *)

Lemma submit_effect (c : Call) (resp : Response) (node : Atom)
  (event : ex.event) (w : World) :
  match fst (submit c resp node event w) with
  | Ok f =>
      pending (snd (submit c resp node event w)) = add_future f (pending w)
      /\ fut_node f = node
  | Raised _ => pending (snd (submit c resp node event w)) = pending w
  end.
Proof.
  unfold submit. destruct (snd resp); simpl; [reflexivity|]. now split.
Qed.

Lemma schedule_node_effect (node : Atom) (w : World) :
  match fst (_schedule_node self node w) with
  | Ok f =>
      pending (snd (_schedule_node self node w)) = add_future f (pending w)
      /\ fut_node f = node
  | Raised _ => pending (snd (_schedule_node self node w)) = pending w
  end.
Proof.
  unfold _schedule_node, _schedule_task, _schedule_retry.
  destruct (kind node); [| |reflexivity].
  - destruct (get_atom_intention (name node) w); try reflexivity;
      apply submit_effect.
  - destruct (get_atom_intention (name node) w); try reflexivity;
      try apply submit_effect.
    generalize (retry_subflow_pending node
                  (retry_change_state node st.RETRYING w)).
    destruct (_retry_subflow self node
                (retry_change_state node st.RETRYING w)) as [[[]|e] w1];
      simpl; intros Hp; [|assumption].
    unfold retry_execute.
    match goal with
    | |- context [submit ?c ?resp ?n ?ev w1] =>
        generalize (submit_effect c resp n ev w1);
        destruct (submit c resp n ev w1) as [[f|e] w2]
    end; simpl; rewrite Hp; auto.
Qed.

(** The futures [_schedule] returns are the ones that became pending. *)
Lemma schedule_loop_effect (nodes : list Atom) :
  forall futures w,
  exists new,
    (forall f, In f (fst (fst (_schedule_loop self futures nodes w)))
               <-> In f futures \/ In f new)
    /\ (forall f, In f (pending (snd (_schedule_loop self futures nodes w)))
                  <-> In f (pending w) \/ In f new)
    /\ (forall f, In f new -> In (fut_node f) nodes).
Proof.
  induction nodes as [|node nodes IH]; intros futures w; simpl.
  - exists []. simpl. repeat split; tauto.
  - generalize (schedule_node_effect node w).
    destruct (_schedule_node self node w) as [[f|e] w1]; simpl.
    + intros [Hp Hnode].
      destruct (IH (add_future f futures) w1) as (new & Hfs & Hpend & Hnew).
      exists (f :: new). split; [|split].
      * intros x. rewrite Hfs. unfold add_future. rewrite set_add_iff.
        simpl. intuition congruence.
      * intros x. rewrite Hpend, Hp. unfold add_future. rewrite set_add_iff.
        simpl. intuition congruence.
      * intros x [<-|Hx]; [now left|]. right. now apply Hnew.
    + intros Hp. exists []. simpl. rewrite Hp. repeat split; tauto.
Qed.

Lemma schedule_effect (nodes : list Atom) (not_done : list Future)
  (w : World) :
  same_elements not_done (pending w) ->
  same_elements (update_futures not_done (fst (fst (_schedule self nodes w))))
                (pending (snd (_schedule self nodes w))).
Proof.
  intros Hsame f. unfold _schedule.
  destruct (schedule_loop_effect nodes [] w) as (new & Hfs & Hpend & _).
  rewrite update_futures_in, Hfs, Hpend, (Hsame f). simpl. tauto.
Qed.

(** *** Waiting retires exactly the futures reported done *)

Lemma wait_for_any_splits (not_done : list Future) (timeout : nat)
  (w : World) (f : Future) :
  In f not_done
  <-> In f (fst (fst (wait_for_any self not_done timeout w)))
      \/ In f (snd (fst (wait_for_any self not_done timeout w))).
Proof.
  unfold wait_for_any. simpl. rewrite !filter_In.
  destruct (resolved (_task_action self) timeout f w); simpl;
    intuition congruence.
Qed.

Lemma wait_for_any_effect (not_done : list Future) (timeout : nat)
  (w : World) :
  same_elements not_done (pending w) ->
  same_elements (snd (fst (wait_for_any self not_done timeout w)))
                (pending (snd (wait_for_any self not_done timeout w))).
Proof.
  intros Hsame f. unfold wait_for_any. simpl.
  rewrite !filter_In, <- (Hsame f).
  unfold mem_future.
  destruct (set_mem Future_eq_dec f
              (filter (fun f0 => resolved (_task_action self) timeout f0 w)
                 not_done)) eqn:E.
  - apply set_mem_correct1 in E. apply filter_In in E.
    destruct E as [_ E]. rewrite E. simpl. intuition congruence.
  - split; [tauto|]. intros [Hin Hres]. split; [assumption|].
    destruct (resolved (_task_action self) timeout f w) eqn:R;
      [|reflexivity].
    exfalso.
    eapply (set_mem_complete1 Future_eq_dec); [exact E|].
    apply filter_In. now split.
Qed.

(** *** Draining *)

Lemma same_elements_nil {A : Type} (l : list A) :
  same_elements [] l -> l = [].
Proof.
  destruct l as [|a l]; [reflexivity|].
  intros H. destruct (proj2 (H a) (or_introl eq_refl)).
Qed.

Lemma while_not_done_holds (timeout : nat) (not_done : list Future)
  (failures : list Failure) (w : World) :
  same_elements not_done (pending w) ->
  match while_not_done self timeout not_done failures w with
  | Yield _ g' w' => holds_the_pending g' w'
  | Raise _ w' => pending w' = []
  | StopIteration w' => pending w' = []
  end.
Proof.
  intros Hsame. unfold while_not_done, conclude.
  destruct not_done as [|f not_done]; [|exact Hsame].
  apply same_elements_nil in Hsame.
  destruct failures as [|f1 [|f2 failures]]; simpl; try assumption.
  destruct (get_next_nodes_answer (_analyzer self) None w) as [[|a l]|e];
    try destruct (is_success (_analyzer self) _);
    unfold holds_the_pending; simpl; rewrite ?Hsame; try reflexivity;
    intros x; tauto.
Qed.

Lemma next_holds_the_pending (g : Gen) (w : World) :
  holds_the_pending g w ->
  match next' g w with
  | Yield _ g' w' => holds_the_pending g' w'
  | Raise _ w' => pending w' = []
  | StopIteration w' => pending w' = []
  end.
Proof.
  unfold holds_the_pending.
  destruct g as [timeout|timeout|timeout next_nodes|timeout not_done failures
                 |timeout done not_done failures
                 |timeout next_nodes not_done failures|];
    cbn [next not_done_of]; intros Hsame.
  - exact Hsame.
  - generalize (prepare_flow_for_resume_pending w).
    destruct (_prepare_flow_for_resume self recursion_limit w)
      as [[next_nodes|e] w1]; simpl; intros Hp.
    + apply same_elements_nil in Hsame.
      destruct (get_next_nodes_answer (_analyzer self) None w1); simpl;
        rewrite ?Hp, ?Hsame; try reflexivity.
      intros x; tauto.
    + rewrite Hp. now apply same_elements_nil.
  - destruct (is_running w); [|now apply while_not_done_holds].
    destruct (schedule_loop_effect next_nodes [] w)
      as (new & Hfs & Hpend & _).
    fold (_schedule self next_nodes w) in Hfs, Hpend.
    destruct (_schedule self next_nodes w) as [[not_done failures] w1].
    simpl in Hfs, Hpend.
    apply while_not_done_holds.
    intros f. rewrite Hfs, Hpend, <- (Hsame f). simpl. tauto.
  - generalize (wait_for_any_effect not_done timeout w Hsame).
    destruct (wait_for_any self not_done timeout w) as [[done nd] w1].
    simpl. tauto.
  - generalize (analyze_pending done [] failures w).
    destruct (analyze self recursion_limit done [] failures w)
      as [[next_nodes failures1] w1]; simpl; intros Hp.
    rewrite <- Hp in Hsame.
    destruct (nonempty next_nodes && empty failures1 && is_running w1);
      [exact Hsame|].
    now apply while_not_done_holds.
  - destruct (is_running w); [|now apply while_not_done_holds].
    generalize (schedule_effect next_nodes not_done w Hsame).
    destruct (_schedule self next_nodes w) as [[more failures1] w1].
    simpl. apply while_not_done_holds.
  - now apply same_elements_nil.
Qed.

(** While futures are in flight the generator neither raises nor returns
    nor yields a terminal marker, and it keeps every future except those
    [wait_for_any] reports done. *)
Lemma next_keeps_the_futures (g : Gen) (w : World) :
  not_done_of g <> [] ->
  exists m g' w',
    next' g w = Yield m g' w'
    /\ ~ terminal m
    /\ forall f, In f (not_done_of g) ->
                 In f (not_done_of g') \/ In f (done_of g').
Proof.
  assert (Hloop : forall timeout not_done failures w0 (old : list Future),
             old <> [] ->
             (forall f, In f old -> In f not_done) ->
             exists m g' w',
               while_not_done self timeout not_done failures w0
               = Yield m g' w'
               /\ ~ terminal m
               /\ forall f, In f old ->
                            In f (not_done_of g') \/ In f (done_of g')).
  { intros timeout not_done failures w0 old Hold Hincl.
    destruct not_done as [|x not_done].
    - destruct old as [|y old]; [congruence|].
      destruct (Hincl y (or_introl eq_refl)).
    - eexists. eexists. eexists. split; [reflexivity|].
      split; [intros [E|[E|E]]; discriminate E|].
      intros f Hf. left. now apply Hincl. }
  destruct g as [timeout|timeout|timeout next_nodes|timeout not_done failures
                 |timeout done not_done failures
                 |timeout next_nodes not_done failures|];
    cbn [next not_done_of]; intros Hne; try congruence.
  - pose proof (wait_for_any_splits not_done timeout w) as Hsplit.
    destruct (wait_for_any self not_done timeout w) as [[done nd] w1].
    simpl in Hsplit.
    eexists. eexists. eexists. split; [reflexivity|].
    split; [intros [E|[E|E]]; discriminate E|].
    intros f Hf. simpl. apply Hsplit in Hf. tauto.
  - destruct (analyze self recursion_limit done [] failures w)
      as [[next_nodes failures1] w1].
    destruct (nonempty next_nodes && empty failures1 && is_running w1).
    + eexists. eexists. eexists. split; [reflexivity|].
      split; [intros [E|[E|E]]; discriminate E|].
      intros f Hf. now left.
    + apply Hloop; [assumption|tauto].
  - destruct (is_running w).
    + destruct (_schedule self next_nodes w) as [[more failures1] w1].
      apply Hloop; [assumption|].
      intros f Hf. apply update_futures_in. now left.
    + apply Hloop; [assumption|tauto].
Qed.

Lemma run_holds_the_pending (others : nat -> Storage -> Storage) (n : nat)
  (timeout : option nat) (w0 : World) :
  pending w0 = [] ->
  match run self recursion_limit others n timeout w0 with
  | Suspended _ g w => holds_the_pending g w
  | Failed _ _ w => pending w = []
  | Returned _ w => pending w = []
  end.
Proof.
  intros Hnone. unfold run.
  apply (iterate_invariant self recursion_limit others
           (fun _ g w => holds_the_pending g w)
           (fun _ w => pending w = [])
           (fun _ w => pending w = [])).
  - intros ms g w k H. exact H.
  - intros ms g w m g' w' H Hnext.
    generalize (next_holds_the_pending g w H). now rewrite Hnext.
  - intros ms g w e w' H Hnext.
    generalize (next_holds_the_pending g w H). now rewrite Hnext.
  - intros ms g w w' H Hnext.
    generalize (next_holds_the_pending g w H). now rewrite Hnext.
  - unfold holds_the_pending. simpl. rewrite Hnone. intros x; tauto.
Qed.

(** C1.  In a run that starts with nothing in flight the generator holds
    in [not_done] exactly the futures that were handed out and not yet
    reported done by [wait_for_any]; when it raises or returns none is
    left.  While [not_done] is not empty, resuming the generator yields a
    non-terminal marker and keeps every future but those reported done,
    whatever the state of the flow.  A flow that is not RUNNING only makes
    the scheduling steps schedule nothing. *)
Theorem in_flight_futures_are_drained :
  forall (others : nat -> Storage -> Storage) (n : nat)
         (timeout : option nat) (w0 : World),
    pending w0 = [] ->
    match run self recursion_limit others n timeout w0 with
    | Suspended _ g w => holds_the_pending g w
    | Failed _ _ w => pending w = []
    | Returned _ w => pending w = []
    end
    /\ (forall g w,
          not_done_of g <> [] ->
          exists m g' w',
            next' g w = Yield m g' w'
            /\ ~ terminal m
            /\ forall f, In f (not_done_of g) ->
                         In f (not_done_of g') \/ In f (done_of g'))
    /\ (forall t next_nodes not_done failures w,
          is_running w = false ->
          next' (at_SCHEDULING t next_nodes not_done failures) w
          = while_not_done self t not_done failures w
          /\ next' (at_first_SCHEDULING t next_nodes) w
             = while_not_done self t [] [] w).
Proof.
  intros others n timeout w0 Hnone.
  split; [|split].
  - now apply run_holds_the_pending.
  - apply next_keeps_the_futures.
  - intros t next_nodes not_done failures w Hstop.
    cbn [next]. now rewrite Hstop.
Qed.

End Futures.

Lemma in_flight_futures_are_drained_witness :
  match run (Demo.action (Demo.chain (fun _ => Ok (Value 1)))) Demo.limit
            Demo.suspender 8 None (Demo.world Demo.fresh) with
  | Returned ms w =>
      ms = [st.RESUMING; st.SCHEDULING; st.WAITING; st.ANALYZING; st.WAITING;
            st.ANALYZING; st.SUSPENDED]
      /\ issued w = 2 /\ pending w = []
  | _ => False
  end.
Proof.
  generalize (in_flight_futures_are_drained
                (Demo.action (Demo.chain (fun _ => Ok (Value 1))))
                Demo.limit Demo.suspender 8 None (Demo.world Demo.fresh)
                eq_refl).
  destruct (run (Demo.action (Demo.chain (fun _ => Ok (Value 1))))
                Demo.limit Demo.suspender 8 None (Demo.world Demo.fresh))
    as [ms g w|ms e w|ms w] eqn:E;
    vm_compute in E; try discriminate E.
  injection E as <- <-.
  intros [H _]. split; [reflexivity|]. split; [reflexivity|]. exact H.
Defined.

(** ** One future per atom *)

Section OneFuturePerAtom.

Variable self : FutureGraphAction.
Variable recursion_limit : nat.

Hypothesis analyzer_excludes_in_flight : excludes_in_flight (_analyzer self).

Local Abbreviation next' := (next self recursion_limit).

Lemma set_add_fresh {A : Type} (dec : forall x y : A, {x = y} + {x <> y})
  (a : A) (l : list A) :
  ~ In a l -> set_add dec a l = l ++ [a].
Proof.
  induction l as [|b l IH]; simpl; intros Hnot; [reflexivity|].
  destruct (dec a b) as [->|Hne]; [tauto|].
  rewrite IH by tauto. reflexivity.
Qed.

Lemma NoDup_snoc {A : Type} (a : A) (l : list A) :
  NoDup l -> ~ In a l -> NoDup (l ++ [a]).
Proof.
  intros Hl Ha.
  apply (Permutation_NoDup (l := a :: l)).
  - apply Permutation_cons_append.
  - now constructor.
Qed.

(** The futures that remain after some were retired are still for distinct
    atoms. *)
Lemma remaining_atoms_distinct (keep : Future -> bool) (fs : list Future) :
  NoDup (atoms_of fs) -> NoDup (atoms_of (filter keep fs)).
Proof.
  unfold atoms_of.
  induction fs as [|f fs IH]; simpl; intros Hfs; [constructor|].
  apply NoDup_cons_iff in Hfs. destruct Hfs as [Hf Hrest].
  specialize (IH Hrest).
  destruct (keep f); simpl; [|exact IH].
  apply NoDup_cons_iff. split; [|exact IH].
  intros Hin. apply Hf. clear - Hin.
  induction fs as [|g fs IH]; simpl in *; [exact Hin|].
  destruct (keep g); simpl in Hin; tauto.
Qed.

Lemma same_elements_atoms (l1 l2 : list Future) :
  NoDup l1 -> NoDup l2 -> same_elements l1 l2 ->
  NoDup (atoms_of l2) -> NoDup (atoms_of l1).
Proof.
  intros H1 H2 Hsame Hatoms.
  apply (Permutation_NoDup (l := atoms_of l2)); [|assumption].
  apply Permutation_map. apply NoDup_Permutation; try assumption.
  intros x. symmetry. apply Hsame.
Qed.

(** Scheduling distinct nodes that have no pending future keeps the atoms
    of the pending futures distinct. *)
Lemma schedule_loop_distinct (nodes : list Atom) :
  forall futures w,
    NoDup nodes ->
    (forall node, In node nodes -> ~ In node (atoms_of (pending w))) ->
    NoDup (pending w) ->
    NoDup (atoms_of (pending w)) ->
    NoDup futures ->
    NoDup (pending (snd (_schedule_loop self futures nodes w)))
    /\ NoDup (atoms_of (pending (snd (_schedule_loop self futures nodes w))))
    /\ NoDup (fst (fst (_schedule_loop self futures nodes w))).
Proof.
  induction nodes as [|node nodes IH];
    intros futures w Hnodes Hfree Hp Ha Hf; simpl; [tauto|].
  inversion Hnodes as [|? ? Hhead Htail]; subst.
  generalize (schedule_node_effect self node w).
  destruct (_schedule_node self node w) as [[f|e] w1]; simpl.
  - intros [Hpend Hnode].
    assert (Hfresh : ~ In f (pending w)).
    { intros Hin. apply (Hfree node (or_introl eq_refl)).
      rewrite <- Hnode. unfold atoms_of. now apply in_map. }
    assert (Hpend' : pending w1 = pending w ++ [f]).
    { rewrite Hpend. now apply set_add_fresh. }
    apply IH.
    + assumption.
    + intros a Hin. rewrite Hpend'. unfold atoms_of.
      rewrite map_app. simpl. rewrite Hnode.
      intros Hbad. apply in_app_or in Hbad. destruct Hbad as [Hbad|[<-|[]]].
      * apply (Hfree a); [now right|exact Hbad].
      * contradiction.
    + rewrite Hpend'. now apply NoDup_snoc.
    + rewrite Hpend'. unfold atoms_of. rewrite map_app. simpl.
      apply NoDup_snoc; [assumption|].
      rewrite Hnode. apply Hfree. now left.
    + now apply set_add_nodup.
  - intros Hpend. rewrite Hpend. tauto.
Qed.

(** The successors the analyzing step gathers are distinct and have no
    pending future. *)
Lemma analyze_future_nodes (future : Future) (next_nodes : list Atom)
  (failures : list Failure) (w : World) :
  NoDup next_nodes ->
  (forall node, In node next_nodes -> ~ In node (atoms_of (pending w))) ->
  NoDup (fst (fst (analyze_future self recursion_limit future next_nodes
                     failures w)))
  /\ forall node,
      In node (fst (fst (analyze_future self recursion_limit future
                           next_nodes failures w))) ->
      ~ In node (atoms_of (pending w)).
Proof.
  intros Hnodup Hfree. unfold analyze_future.
  generalize (analyze_try_pending self recursion_limit future failures w).
  destruct (analyze_try self recursion_limit future failures w)
    as [[[node|e] failures1] w1]; simpl; intros Hp; [|tauto].
  unfold get_next_nodes.
  destruct (get_next_nodes_answer (_analyzer self) (Some node) w1)
    as [more|e] eqn:Hanswer; simpl; [|tauto].
  split; [now apply update_nodes_nodup|].
  intros a Hin. apply update_nodes_in in Hin.
  destruct Hin as [Hin|Hin]; [now apply Hfree|].
  rewrite <- Hp.
  exact (analyzer_excludes_in_flight (Some node) w1 more Hanswer a Hin).
Qed.

Lemma analyze_nodes (done : list Future) :
  forall next_nodes failures w,
    NoDup next_nodes ->
    (forall node, In node next_nodes -> ~ In node (atoms_of (pending w))) ->
    NoDup (fst (fst (analyze self recursion_limit done next_nodes
                       failures w)))
    /\ forall node,
        In node (fst (fst (analyze self recursion_limit done next_nodes
                             failures w))) ->
        ~ In node (atoms_of (pending w)).
Proof.
  induction done as [|future done IH]; intros next_nodes failures w Hn Hfree;
    simpl; [tauto|].
  generalize (analyze_future_nodes future next_nodes failures w Hn Hfree).
  generalize (analyze_future_pending self recursion_limit future next_nodes
                failures w).
  destruct (analyze_future self recursion_limit future next_nodes failures w)
    as [[nodes1 failures1] w1]; simpl; intros Hp [Hn1 Hfree1].
  rewrite <- Hp. apply IH; [assumption|]. now rewrite Hp.
Qed.

Lemma prepare_flow_for_resume_nodes (w : World) (next_nodes : list Atom)
  (w1 : World) :
  _prepare_flow_for_resume self recursion_limit w = (Ok next_nodes, w1) ->
  NoDup next_nodes.
Proof.
  unfold _prepare_flow_for_resume.
  destruct (for_each _ (iterate_all_nodes (_analyzer self)) w)
    as [[[]|e] w2]; [|discriminate].
  destruct (for_each _ _ w2) as [[[]|e] w3]; [|discriminate].
  intros H. injection H as <- <-.
  assert (Hfold : forall l acc,
             NoDup acc ->
             NoDup (fold_left
                      (fun next_nodes node =>
                         if st.eqb (get_state node w3) st.RUNNING
                            || st.eqb (get_state node w3) st.REVERTING
                         then add_node node next_nodes else next_nodes)
                      l acc)).
  { induction l as [|a l IH]; simpl; intros acc Hacc; [assumption|].
    apply IH. destruct (_ || _); [|assumption].
    now apply set_add_nodup. }
  apply Hfold. constructor.
Qed.

Lemma while_not_done_one_future_per_atom (timeout : nat)
  (not_done : list Future) (failures : list Failure) (w : World) :
  NoDup (pending w) ->
  NoDup (atoms_of (pending w)) ->
  NoDup not_done ->
  same_elements not_done (pending w) ->
  match while_not_done self timeout not_done failures w with
  | Yield _ g' w' => one_future_per_atom g' w'
  | _ => True
  end.
Proof.
  intros Hp Ha Hn Hsame. unfold while_not_done, conclude.
  destruct not_done as [|f not_done].
  - destruct failures as [|f1 [|f2 failures]]; simpl; try exact I.
    destruct (get_next_nodes_answer (_analyzer self) None w) as [[|a l]|e];
      try destruct (is_success (_analyzer self) _);
      try exact I;
      unfold one_future_per_atom; simpl;
      (split; [assumption|]); (split; [assumption|]);
      (split; [constructor|]); (split; [exact Hsame|]);
      (split; [constructor|]); intros node [].
  - unfold one_future_per_atom; simpl.
    split; [assumption|]. split; [assumption|].
    split; [assumption|]. split; [exact Hsame|].
    split; [constructor|]. intros node [].
Qed.

Lemma next_one_future_per_atom (g : Gen) (w : World) :
  one_future_per_atom g w ->
  match next' g w with
  | Yield _ g' w' => one_future_per_atom g' w'
  | _ => True
  end.
Proof.
  unfold one_future_per_atom at 1.
  destruct g as [timeout|timeout|timeout next_nodes|timeout not_done failures
                 |timeout done not_done failures
                 |timeout next_nodes not_done failures|];
    cbn [next not_done_of next_nodes_of];
    intros (Hp & Ha & Hn & Hsame & Hnodes & Hfree).
  - unfold one_future_per_atom; simpl. tauto.
  - generalize (prepare_flow_for_resume_pending self recursion_limit w).
    generalize (prepare_flow_for_resume_nodes w).
    destruct (_prepare_flow_for_resume self recursion_limit w)
      as [[next_nodes|e] w1]; simpl; intros Hprep Hpend; [|exact I].
    specialize (Hprep next_nodes w1 eq_refl).
    unfold get_next_nodes.
    destruct (get_next_nodes_answer (_analyzer self) None w1) as [more|e];
      simpl; [|exact I].
    unfold one_future_per_atom; simpl. rewrite Hpend.
    repeat split; try assumption; try (now apply Hsame).
    + now apply update_nodes_nodup.
    + intros node _. rewrite (same_elements_nil _ Hsame). tauto.
  - destruct (is_running w).
    + destruct (schedule_loop_effect self next_nodes [] w)
        as (new & Hfs & Hpend & _).
      destruct (schedule_loop_distinct next_nodes [] w Hnodes Hfree Hp Ha
                  (NoDup_nil _)) as (Hp1 & Ha1 & Hf1).
      fold (_schedule self next_nodes w) in Hfs, Hpend, Hp1, Ha1, Hf1.
      destruct (_schedule self next_nodes w) as [[not_done failures] w1].
      simpl in *.
      apply while_not_done_one_future_per_atom; try assumption.
      intros f. rewrite Hfs, Hpend, <- (Hsame f). simpl. tauto.
    + now apply while_not_done_one_future_per_atom.
  - generalize (wait_for_any_effect self not_done timeout w Hsame).
    unfold wait_for_any. simpl. intros Hsame'.
    unfold one_future_per_atom; simpl.
    repeat split; try (now apply Hsame'); try constructor; try tauto.
    + now apply NoDup_filter.
    + now apply remaining_atoms_distinct.
    + now apply NoDup_filter.
  - generalize (analyze_pending self recursion_limit done [] failures w).
    destruct (analyze_nodes done [] failures w (NoDup_nil _))
      as [Hn1 Hfree1]; [simpl; tauto|].
    destruct (analyze self recursion_limit done [] failures w)
      as [[next_nodes failures1] w1]; simpl in *; intros Hpend.
    rewrite <- Hpend in Hp, Ha, Hsame, Hfree1.
    destruct (nonempty next_nodes && empty failures1 && is_running w1).
    + unfold one_future_per_atom; simpl. tauto.
    + now apply while_not_done_one_future_per_atom.
  - destruct (is_running w).
    + generalize (schedule_effect self next_nodes not_done w Hsame).
      destruct (schedule_loop_distinct next_nodes [] w Hnodes Hfree Hp Ha
                  (NoDup_nil _)) as (Hp1 & Ha1 & Hf1).
      fold (_schedule self next_nodes w) in Hp1, Ha1, Hf1.
      destruct (_schedule self next_nodes w) as [[more failures1] w1].
      simpl in *. intros Hsame1.
      apply while_not_done_one_future_per_atom; try assumption.
      now apply update_futures_nodup.
    + now apply while_not_done_one_future_per_atom.
  - exact I.
Qed.

(** C5.  When the readiness queries of the Analyzer never answer with an
    atom that has a pending future, then all along a run that starts with
    nothing in flight no two futures of [not_done] are for the same atom,
    no two pending futures are for the same atom, and no node about to be
    scheduled has a future in [not_done]. *)
Theorem at_most_one_future_per_atom :
  forall (others : nat -> Storage -> Storage) (n : nat)
         (timeout : option nat) (w0 : World),
    pending w0 = [] ->
    match run self recursion_limit others n timeout w0 with
    | Suspended _ g w =>
        NoDup (atoms_of (not_done_of g))
        /\ NoDup (atoms_of (pending w))
        /\ forall node, In node (next_nodes_of g) ->
                        ~ In node (atoms_of (not_done_of g))
    | Failed _ _ w => NoDup (atoms_of (pending w))
    | Returned _ w => NoDup (atoms_of (pending w))
    end.
Proof.
  intros others n timeout w0 Hnone.
  assert (Hinv :
            match run self recursion_limit others n timeout w0 with
            | Suspended _ g w => one_future_per_atom g w
            | _ => True
            end).
  { unfold run.
    apply (iterate_invariant self recursion_limit others
             (fun _ g w => one_future_per_atom g w)
             (fun _ _ => True) (fun _ _ => True)); try (intros; exact I).
    - intros ms g w k H. exact H.
    - intros ms g w m g' w' H Hnext.
      generalize (next_one_future_per_atom g w H). now rewrite Hnext.
    - unfold one_future_per_atom. simpl. rewrite Hnone. simpl.
      repeat split; try constructor; tauto. }
  pose proof (run_holds_the_pending self recursion_limit others n timeout w0
                Hnone) as Hend.
  destruct (run self recursion_limit others n timeout w0)
    as [ms g w|ms e w|ms w].
  - destruct Hinv as (Hp & Ha & Hn & Hsame & Hnodes & Hfree).
    split; [|split].
    + exact (same_elements_atoms _ _ Hn Hp Hsame Ha).
    + exact Ha.
    + intros node Hin Hbad. apply (Hfree node Hin).
      unfold atoms_of in *. apply in_map_iff in Hbad.
      destruct Hbad as (f & Hf & Hin'). apply in_map_iff.
      exists f. split; [assumption|]. now apply Hsame.
  - rewrite Hend. constructor.
  - rewrite Hend. constructor.
Qed.

End OneFuturePerAtom.

(** The analyzer of the small flows never answers with an atom in
    flight. *)
Lemma demo_analyzer_excludes_in_flight (s : Demo.Script) :
  excludes_in_flight (_analyzer (Demo.action s)).
Proof.
  intros arg w ready H node Hin Hbad.
  simpl in H. injection H as <-.
  apply filter_In in Hin. destruct Hin as [_ Hready].
  unfold Demo.ready in Hready.
  apply andb_prop in Hready. destruct Hready as [Hfree _].
  unfold Demo.in_flight in Hfree.
  apply (set_mem_correct2 Atom_eq_dec) in Hbad.
  rewrite Hbad in Hfree. discriminate Hfree.
Qed.

Lemma at_most_one_future_per_atom_witness :
  match run (Demo.action (Demo.chain (fun _ => Ok (Value 1)))) Demo.limit
            Demo.nobody 6 None (Demo.world Demo.fresh) with
  | Suspended _ g _ =>
      atoms_of (not_done_of g) = [Demo.B; Demo.C]
      /\ NoDup (atoms_of (not_done_of g))
  | _ => False
  end.
Proof.
  generalize (at_most_one_future_per_atom
                (Demo.action (Demo.chain (fun _ => Ok (Value 1))))
                Demo.limit
                (demo_analyzer_excludes_in_flight
                   (Demo.chain (fun _ => Ok (Value 1))))
                Demo.nobody 6 None (Demo.world Demo.fresh) eq_refl).
  destruct (run (Demo.action (Demo.chain (fun _ => Ok (Value 1))))
                Demo.limit Demo.nobody 6 None (Demo.world Demo.fresh))
    as [ms g w|ms e w|ms w] eqn:E;
    vm_compute in E; try discriminate E.
  injection E as <- <- <-.
  intros [H _]. split; [reflexivity|exact H].
Defined.

(** * Further properties of the driver *)

(** ** Resetting *)

Section Resetting.

Variable self : FutureGraphAction.

Lemma for_each_app {A : Type} (body : A -> World -> Exc unit * World)
  (l1 l2 : list A) :
  forall w,
    for_each body (l1 ++ l2) w
    = match for_each body l1 w with
      | (Ok _, w1) => for_each body l2 w1
      | (Raised e, w1) => (Raised e, w1)
      end.
Proof.
  induction l1 as [|a l1 IH]; intros w; simpl; [reflexivity|].
  destruct (body a w) as [[[]|e] w1]; [apply IH|reflexivity].
Qed.

Lemma reset_node_progress (i : st.intention) (a : Atom) (w : World) :
  (forall n, atom_result (storage (snd (_reset_node i a w))) n
             = atom_result (storage w) n)
  /\ (forall n, atom_progress (storage w) n = 0 ->
                atom_progress (storage (snd (_reset_node i a w))) n = 0)
  /\ (forall n, n <> name a \/ is_task a = false ->
                atom_progress (storage (snd (_reset_node i a w))) n
                = atom_progress (storage w) n)
  /\ (is_task a = true ->
      atom_progress (storage (snd (_reset_node i a w))) (name a) = 0)
  /\ (known_kind a -> fst (_reset_node i a w) = Ok tt).
Proof.
  unfold _reset_node, is_task, known_kind.
  destruct (kind a); simpl; unfold upd;
    (split; [reflexivity|]);
    (split; [intros n Hn; destruct (string_dec (name a) n); congruence|]);
    (split; [intros n [Hn|Hn]; destruct (string_dec (name a) n); congruence|]);
    (split; [intros Ht; destruct (string_dec (name a) (name a)); congruence|]);
    intros [H|H]; congruence.
Qed.

(** Resetting writes no result, gives the progress 0 to the tasks it
    resets and leaves the progress of every other name alone. *)
Lemma reset_nodes_progress (i : st.intention) (nodes : list Atom) :
  forall w,
    let w' := snd (_reset_nodes nodes i w) in
    (forall n, atom_result (storage w') n = atom_result (storage w) n)
    /\ (forall n, atom_progress (storage w) n = 0 ->
                  atom_progress (storage w') n = 0)
    /\ (forall n, ~ In n (task_names nodes) ->
                  atom_progress (storage w') n = atom_progress (storage w) n)
    /\ (Forall known_kind nodes ->
        forall n, In n (task_names nodes) ->
                  atom_progress (storage w') n = 0).
Proof.
  unfold _reset_nodes, task_names.
  induction nodes as [|a nodes IH]; intros w; simpl.
  - repeat split; auto. intros _ n [].
  - destruct (reset_node_progress i a w)
      as (Hres1 & Hzero1 & Hout1 & Hin1 & Hok1).
    destruct (_reset_node i a w) as [[[]|e] w1]; simpl in *.
    + destruct (IH w1) as (Hres & Hzero & Hout & Hin).
      split; [|split; [|split]].
      * intros n. now rewrite Hres.
      * intros n Hn. apply Hzero. now apply Hzero1.
      * intros n Hn. destruct (is_task a) eqn:Ht; simpl in Hn.
        -- rewrite Hout by tauto. apply Hout1. left. intros ->. tauto.
        -- rewrite Hout by tauto. apply Hout1. now right.
      * intros Hknown n Hn. inversion Hknown as [|? ? _ Hrest]; subst.
        destruct (is_task a) eqn:Ht; simpl in Hn.
        -- destruct Hn as [<-|Hn]; [|now apply Hin].
           apply Hzero. now apply Hin1.
        -- now apply Hin.
    + split; [exact Hres1|]. split; [exact Hzero1|]. split.
      * intros n Hn. destruct (is_task a) eqn:Ht; simpl in Hn.
        -- apply Hout1. left. intros ->. tauto.
        -- apply Hout1. now right.
      * intros Hknown. inversion Hknown as [|? ? Ha _]; subst.
        specialize (Hok1 Ha). discriminate Hok1.
Qed.

(** X1.  [reset_all] on a graph of tasks and retry controllers ends
    normally and leaves every atom of the graph in the state PENDING with
    the intention EXECUTE and every task with the progress 0; it writes no
    result, keeps the state of the flow and hands out or retires no
    future. *)
Theorem reset_all_resets :
  forall w : World,
    Forall known_kind (iterate_all_nodes (_analyzer self)) ->
    exists w',
      reset_all self w = (Ok tt, w')
      /\ (forall node,
            In node (iterate_all_nodes (_analyzer self)) ->
            get_state node w' = st.PENDING
            /\ get_atom_intention (name node) w' = st.EXECUTE
            /\ (kind node = BaseTask ->
                atom_progress (storage w') (name node) = 0))
      /\ flow_state (storage w') = flow_state (storage w)
      /\ (forall n, atom_result (storage w') n = atom_result (storage w) n)
      /\ pending w' = pending w.
Proof.
  intros w Hknown. unfold reset_all.
  destruct (reset_nodes_effect st.EXECUTE _ w Hknown)
    as (w' & Hrun & Hin & _ & Hflow & Hpend & _ & _).
  destruct (reset_nodes_progress st.EXECUTE
              (iterate_all_nodes (_analyzer self)) w)
    as (Hres & _ & _ & Hzero).
  rewrite Hrun in Hres, Hzero. simpl in Hres, Hzero.
  exists w'. split; [exact Hrun|]. split; [|tauto].
  intros node Hnode.
  destruct (Hin (name node) (in_map name _ _ Hnode)) as [Hs Hi].
  split; [exact Hs|]. split; [exact Hi|].
  intros Htask. apply (Hzero Hknown).
  unfold task_names. apply in_map. apply filter_In.
  split; [assumption|]. unfold is_task. now rewrite Htask.
Qed.

(** X2.  Resetting twice gives the same store as resetting once. *)
Theorem reset_all_idempotent :
  forall w : World,
    Forall known_kind (iterate_all_nodes (_analyzer self)) ->
    exists w1 w2,
      reset_all self w = (Ok tt, w1)
      /\ reset_all self w1 = (Ok tt, w2)
      /\ same_storage (storage w2) (storage w1).
Proof.
  intros w Hknown. unfold reset_all.
  destruct (reset_nodes_effect st.EXECUTE _ w Hknown)
    as (w1 & Hrun1 & Hin1 & _ & _ & _ & _ & _).
  destruct (reset_nodes_effect st.EXECUTE _ w1 Hknown)
    as (w2 & Hrun2 & Hin2 & Hout2 & Hflow2 & _ & _ & _).
  destruct (reset_nodes_progress st.EXECUTE
              (iterate_all_nodes (_analyzer self)) w)
    as (_ & _ & _ & Hzero1).
  destruct (reset_nodes_progress st.EXECUTE
              (iterate_all_nodes (_analyzer self)) w1)
    as (Hres2 & Hkeep2 & Hout2' & _).
  rewrite Hrun1 in Hzero1. rewrite Hrun2 in Hres2, Hkeep2, Hout2'.
  simpl in *.
  exists w1, w2. split; [exact Hrun1|]. split; [exact Hrun2|].
  split; [exact Hflow2|]. split; [|split; [|split]].
  - intros n.
    destruct (in_dec string_dec n
                (map name (iterate_all_nodes (_analyzer self)))) as [Hn|Hn].
    + destruct (Hin1 n Hn) as [_ ->]. now destruct (Hin2 n Hn).
    + now destruct (Hout2 n Hn).
  - intros n.
    destruct (in_dec string_dec n
                (map name (iterate_all_nodes (_analyzer self)))) as [Hn|Hn].
    + destruct (Hin1 n Hn) as [-> _]. now destruct (Hin2 n Hn).
    + now destruct (Hout2 n Hn).
  - exact Hres2.
  - intros n.
    destruct (in_dec string_dec n
                (task_names (iterate_all_nodes (_analyzer self))))
      as [Hn|Hn].
    + rewrite (Hzero1 Hknown n Hn). apply Hkeep2. now apply Hzero1.
    + now apply Hout2'.
Qed.

(** X3.  A node that is neither a task nor a retry controller stops
    [_reset_nodes] with a [TypeError]: the nodes before it have been
    reset, the node itself and the nodes after it are not touched. *)
Theorem reset_nodes_stops_at_unknown_node :
  forall (before : list Atom) (node : Atom) (rest : list Atom)
         (i : st.intention) (w : World),
    Forall known_kind before ->
    kind node = Neither ->
    exists w',
      _reset_nodes before i w = (Ok tt, w')
      /\ _reset_nodes (before ++ node :: rest) i w
         = (Raised (TypeError ("Unknown how to reset node " ++ name node)),
            w').
Proof.
  intros before node rest i w Hknown Hkind.
  destruct (reset_nodes_effect i before w Hknown) as (w' & Hrun & _).
  exists w'. split; [exact Hrun|].
  unfold _reset_nodes in *. rewrite for_each_app, Hrun. simpl.
  unfold _reset_node. now rewrite Hkind.
Qed.

(** X4.  Re-arming the subflow of a retry controller touches only the
    intention of the controller and the atoms of its guarded subgraph:
    the state of every other atom (of the controller too, when it is not
    in the subgraph), the intention of every atom that is neither the
    controller nor in the subgraph, the results, the state of the flow and
    the pending futures are what they were. *)
Theorem retry_subflow_touches_only_its_subflow :
  forall (retry : Atom) (w : World),
    Forall known_kind (iterate_subgraph (_analyzer self) retry) ->
    exists w',
      _retry_subflow self retry w = (Ok tt, w')
      /\ get_atom_intention (name retry) w' = st.EXECUTE
      /\ (forall node,
            In node (iterate_subgraph (_analyzer self) retry) ->
            get_state node w' = st.PENDING
            /\ get_atom_intention (name node) w' = st.EXECUTE)
      /\ (forall n,
            ~ In n (map name (iterate_subgraph (_analyzer self) retry)) ->
            atom_state (storage w') n = atom_state (storage w) n
            /\ (n <> name retry ->
                atom_intention (storage w') n = atom_intention (storage w) n))
      /\ flow_state (storage w') = flow_state (storage w)
      /\ (forall n, atom_result (storage w') n = atom_result (storage w) n)
      /\ pending w' = pending w.
Proof.
  intros retry w Hknown. unfold _retry_subflow.
  destruct (reset_nodes_effect st.EXECUTE _
              (set_atom_intention (name retry) st.EXECUTE w) Hknown)
    as (w' & Hrun & Hin & Hout & Hflow & Hpend & _ & _).
  destruct (reset_nodes_progress st.EXECUTE
              (iterate_subgraph (_analyzer self) retry)
              (set_atom_intention (name retry) st.EXECUTE w))
    as (Hres & _).
  rewrite Hrun in Hres. simpl in Hres.
  exists w'. split; [exact Hrun|].
  split; [|split; [|split; [|repeat split; assumption]]].
  - unfold get_atom_intention.
    destruct (in_dec string_dec (name retry)
                (map name (iterate_subgraph (_analyzer self) retry)))
      as [Hn|Hn].
    + now destruct (Hin _ Hn).
    + destruct (Hout _ Hn) as [_ ->]. simpl. unfold upd.
      destruct (string_dec (name retry) (name retry)); congruence.
  - intros node Hnode. apply Hin. now apply in_map.
  - intros n Hn. destruct (Hout n Hn) as [Hs Hi].
    split; [exact Hs|].
    intros Hne. rewrite Hi. simpl. unfold upd.
    destruct (string_dec (name retry) n); congruence.
Qed.

End Resetting.

Lemma reset_all_resets_witness :
  exists w',
    reset_all (Demo.action Demo.two_tasks) (Demo.world Demo.retrying)
    = (Ok tt, w')
    /\ get_state Demo.A w' = st.PENDING
    /\ get_atom_intention "A" w' = st.EXECUTE.
Proof.
  destruct (reset_all_resets (Demo.action Demo.two_tasks)
              (Demo.world Demo.retrying))
    as (w' & Hrun & Hnodes & _).
  - repeat constructor.
  - exists w'. split; [exact Hrun|].
    destruct (Hnodes Demo.A (or_introl eq_refl)) as (Hs & Hi & _).
    split; assumption.
Defined.

Lemma reset_all_idempotent_witness :
  exists w1 w2,
    reset_all (Demo.action Demo.two_tasks) (Demo.world Demo.retrying)
    = (Ok tt, w1)
    /\ reset_all (Demo.action Demo.two_tasks) w1 = (Ok tt, w2)
    /\ same_storage (storage w2) (storage w1).
Proof.
  apply (reset_all_idempotent (Demo.action Demo.two_tasks)
           (Demo.world Demo.retrying)).
  repeat constructor.
Defined.

Lemma reset_nodes_stops_at_unknown_node_witness :
  exists w',
    _reset_nodes [Demo.A] st.EXECUTE (Demo.world Demo.retrying) = (Ok tt, w')
    /\ _reset_nodes ([Demo.A] ++ Demo.X :: [Demo.B]) st.EXECUTE
         (Demo.world Demo.retrying)
       = (Raised (TypeError "Unknown how to reset node X"), w').
Proof.
  apply (reset_nodes_stops_at_unknown_node [Demo.A] Demo.X [Demo.B]
           st.EXECUTE (Demo.world Demo.retrying)).
  - repeat constructor.
  - reflexivity.
Defined.

Lemma retry_subflow_touches_only_its_subflow_witness :
  exists w',
    _retry_subflow (Demo.action Demo.guarded_task) Demo.R
      (Demo.world Demo.retrying) = (Ok tt, w')
    /\ get_atom_intention "R" w' = st.EXECUTE
    /\ get_state Demo.R w' = st.SUCCESS.
Proof.
  destruct (retry_subflow_touches_only_its_subflow
              (Demo.action Demo.guarded_task) Demo.R
              (Demo.world Demo.retrying))
    as (w' & Hrun & Hi & _ & Hout & _).
  - repeat constructor.
  - exists w'. split; [exact Hrun|]. split; [exact Hi|].
    unfold get_state.
    destruct (Hout "R") as [Hs _]; [|simpl; rewrite Hs; reflexivity].
    simpl. intros [Heq|[]]. discriminate Heq.
Defined.

(** ** Scheduling *)

Section Batches.

Variable self : FutureGraphAction.

Lemma schedule_loop_app (l1 l2 : list Atom) :
  forall futures w,
    _schedule_loop self futures (l1 ++ l2) w
    = match _schedule_loop self futures l1 w with
      | ((fs, []), w1) => _schedule_loop self fs l2 w1
      | stopped => stopped
      end.
Proof.
  induction l1 as [|a l1 IH]; intros futures w; simpl; [reflexivity|].
  destruct (_schedule_node self a w) as [[f|e] w1]; [apply IH|reflexivity].
Qed.

Lemma schedule_loop_outcome (nodes : list Atom) :
  forall futures w,
    (forall f, In f futures ->
               In f (fst (fst (_schedule_loop self futures nodes w))))
    /\ (forall f, In f (fst (fst (_schedule_loop self futures nodes w))) ->
                  In f futures \/ In (fut_node f) nodes)
    /\ (snd (fst (_schedule_loop self futures nodes w)) = [] ->
        forall node,
          In node nodes ->
          In node (atoms_of (fst (fst (_schedule_loop self futures nodes w)))))
    /\ List.length (snd (fst (_schedule_loop self futures nodes w))) <= 1.
Proof.
  induction nodes as [|a nodes IH]; intros futures w; simpl.
  - repeat split; auto. intros _ node [].
  - generalize (schedule_node_effect self a w).
    destruct (_schedule_node self a w) as [[f|e] w1]; simpl.
    + intros [_ Hnode].
      destruct (IH (add_future f futures) w1) as (Hkeep & Hfrom & Hall & Hlen).
      split; [|split; [|split]].
      * intros x Hx. apply Hkeep. unfold add_future.
        apply set_add_intro1. exact Hx.
      * intros x Hx. apply Hfrom in Hx. destruct Hx as [Hx|Hx]; [|tauto].
        unfold add_future in Hx. apply set_add_elim in Hx.
        destruct Hx as [->|Hx]; [|tauto]. right. left. now symmetry.
      * intros Hnone node [<-|Hin]; [|now apply Hall].
        unfold atoms_of. rewrite <- Hnode. apply in_map.
        apply Hkeep. unfold add_future. now apply set_add_intro2.
      * exact Hlen.
    + intros _. repeat split; auto. discriminate.
Qed.

(** X5.  [_schedule] returns at most one failure and futures for nodes of
    the batch only; when it returns no failure every node of the batch has
    a future. *)
Theorem schedule_all_or_one_failure :
  forall (nodes : list Atom) (w : World),
    List.length (snd (fst (_schedule self nodes w))) <= 1
    /\ (forall f, In f (fst (fst (_schedule self nodes w))) ->
                  In (fut_node f) nodes)
    /\ (snd (fst (_schedule self nodes w)) = [] ->
        forall node,
          In node nodes ->
          In node (atoms_of (fst (fst (_schedule self nodes w))))).
Proof.
  intros nodes w. unfold _schedule.
  destruct (schedule_loop_outcome nodes [] w) as (_ & Hfrom & Hall & Hlen).
  split; [exact Hlen|]. split; [|exact Hall].
  intros f Hf. destruct (Hfrom f Hf) as [[]|H]. exact H.
Qed.

(** X6.  [_schedule] stops at the first node that fails to schedule: the
    outcome is the futures of the nodes before it and that one failure,
    whatever nodes follow, and the world is the one the failed attempt
    left. *)
Theorem schedule_stops_at_first_failure :
  forall (before : list Atom) (node : Atom) (rest : list Atom)
         (w w1 w2 : World) (futures : list Future) (e : Exn),
    _schedule self before w = ((futures, []), w1) ->
    _schedule_node self node w1 = (Raised e, w2) ->
    _schedule self (before ++ node :: rest) w
    = ((futures, [mkFailure e]), w2).
Proof.
  intros before node rest w w1 w2 futures e Hbefore Hnode.
  unfold _schedule in *. rewrite schedule_loop_app, Hbefore.
  simpl. now rewrite Hnode.
Qed.

(** X7.  The future [_schedule_node] returns is for the node it was given,
    which is a task or a retry controller; it is a future of reversion
    exactly when the stored intention of the node is REVERT, and a future
    of execution exactly when the intention is EXECUTE or, for a retry
    controller, RETRY. *)
Theorem scheduled_event_follows_intention :
  forall (node : Atom) (w w' : World) (f : Future),
    _schedule_node self node w = (Ok f, w') ->
    fut_node f = node
    /\ known_kind node
    /\ (fut_event f = ex.REVERTED
        <-> get_atom_intention (name node) w = st.REVERT)
    /\ (fut_event f = ex.EXECUTED
        <-> get_atom_intention (name node) w = st.EXECUTE
            \/ (kind node = Retry
                /\ get_atom_intention (name node) w = st.RETRY)).
Proof.
  intros node w w' f.
  assert (Hsubmit : forall c resp n ev w0 w0' f0,
             submit c resp n ev w0 = (Ok f0, w0') ->
             fut_node f0 = n /\ fut_event f0 = ev).
  { intros c resp n ev w0 w0' f0. unfold submit.
    destruct (snd resp); [discriminate|].
    intros H. injection H as <- _. now split. }
  unfold _schedule_node, _schedule_task, _schedule_retry, known_kind.
  destruct (kind node) eqn:Hkind; [| |discriminate].
  - destruct (get_atom_intention (name node) w) eqn:Hint;
      try discriminate; intros H;
      apply Hsubmit in H; destruct H as [Hn He]; rewrite He;
      (split; [exact Hn|]); (split; [now left|]);
      split; split; try congruence; try tauto;
      intros [H|[H _]]; congruence.
  - destruct (get_atom_intention (name node) w) eqn:Hint; try discriminate.
    + intros H; apply Hsubmit in H; destruct H as [Hn He]; rewrite He.
      split; [exact Hn|]. split; [now right|].
      split; split; try congruence; tauto.
    + intros H; apply Hsubmit in H; destruct H as [Hn He]; rewrite He.
      split; [exact Hn|]. split; [now right|].
      split; split; try congruence; try tauto.
      intros [H|[_ H]]; congruence.
    + destruct (_retry_subflow self node
                  (retry_change_state node st.RETRYING w)) as [[[]|e] w1];
        [|discriminate].
      intros H; apply Hsubmit in H; destruct H as [Hn He]; rewrite He.
      split; [exact Hn|]. split; [now right|].
      split; split; try congruence; tauto.
Qed.

End Batches.

Lemma schedule_stops_at_first_failure_witness :
  exists f w2,
    _schedule (Demo.action Demo.unknown_node) ([Demo.A] ++ Demo.X :: [Demo.B])
      (Demo.world Demo.fresh)
    = (([f], [mkFailure (TypeError "Unknown how to schedule node X")]), w2)
    /\ fut_node f = Demo.A.
Proof.
  eexists. eexists. split.
  - eapply (schedule_stops_at_first_failure (Demo.action Demo.unknown_node)
              [Demo.A] Demo.X [Demo.B] (Demo.world Demo.fresh));
      reflexivity.
  - reflexivity.
Defined.

Lemma scheduled_event_follows_intention_witness :
  exists f w',
    _schedule_node (Demo.action Demo.guarded_task) Demo.T
      (Demo.world Demo.retrying) = (Ok f, w')
    /\ fut_node f = Demo.T
    /\ fut_event f = ex.REVERTED.
Proof.
  destruct (_schedule_node (Demo.action Demo.guarded_task) Demo.T
              (Demo.world Demo.retrying)) as [[f|e] w'] eqn:E;
    [|vm_compute in E; discriminate E].
  exists f, w'. split; [reflexivity|].
  destruct (scheduled_event_follows_intention (Demo.action Demo.guarded_task)
              Demo.T (Demo.world Demo.retrying) w' f E)
    as (Hn & _ & Hrev & _).
  split; [exact Hn|]. apply Hrev. reflexivity.
Defined.

(** ** What each step calls *)

Section Footprints.

Variable self : FutureGraphAction.
Variable recursion_limit : nat.

Lemma only_calls_refl (p : Call -> bool) (w : World) : only_calls p w w.
Proof. exists []. now rewrite app_nil_r. Qed.

Lemma only_calls_trans (p : Call -> bool) (w1 w2 w3 : World) :
  only_calls p w1 w2 -> only_calls p w2 w3 -> only_calls p w1 w3.
Proof.
  intros (n1 & H1 & P1) (n2 & H2 & P2).
  exists (n1 ++ n2). rewrite H2, H1, <- app_assoc. split; [reflexivity|].
  rewrite forallb_app, P1, P2. reflexivity.
Qed.

Lemma only_calls_weaken (p q : Call -> bool) (w w' : World) :
  (forall c, p c = true -> q c = true) ->
  only_calls p w w' -> only_calls q w w'.
Proof.
  intros Hpq (new & H & P). exists new. split; [exact H|].
  rewrite forallb_forall in *. auto.
Qed.

Lemma only_calls_one (p : Call -> bool) (c : Call) (w w' : World) :
  p c = true -> calls w' = calls w ++ [c] -> only_calls p w w'.
Proof. intros Hp H. exists [c]. split; [exact H|]. simpl. now rewrite Hp. Qed.

Lemma only_calls_filter (p q : Call -> bool) (w w' : World) :
  (forall c, p c = true -> q c = false) ->
  only_calls p w w' ->
  filter q (calls w') = filter q (calls w).
Proof.
  intros Hpq (new & -> & P).
  apply filter_app_nothing.
  rewrite forallb_forall in *. intros c Hc.
  now rewrite (Hpq c (P c Hc)).
Qed.

Lemma for_each_preorder {A : Type} (R : World -> World -> Prop)
  (body : A -> World -> Exc unit * World) :
  (forall w, R w w) ->
  (forall w1 w2 w3, R w1 w2 -> R w2 w3 -> R w1 w3) ->
  (forall a w, R w (snd (body a w))) ->
  forall l w, R w (snd (for_each body l w)).
Proof.
  intros Hrefl Htrans Hbody. induction l as [|a l IH]; intros w; simpl.
  - apply Hrefl.
  - specialize (Hbody a w).
    destruct (body a w) as [[[]|e] w1]; simpl in *; [|assumption].
    eapply Htrans; [exact Hbody|apply IH].
Qed.

(** Only calls that [p] allows, and neither the state of the flow nor a
    result nor a future touched. *)
Local Abbreviation gently p w w' :=
  (only_calls p w w'
   /\ pending w' = pending w
   /\ issued w' = issued w
   /\ flow_state (storage w') = flow_state (storage w)
   /\ forall n, atom_result (storage w') n = atom_result (storage w) n).

Lemma gently_refl (p : Call -> bool) (w : World) : gently p w w.
Proof. split; [apply only_calls_refl|]. repeat split. Qed.

Lemma gently_trans (p : Call -> bool) (w1 w2 w3 : World) :
  gently p w1 w2 -> gently p w2 w3 -> gently p w1 w3.
Proof.
  intros (C1 & P1 & I1 & F1 & R1) (C2 & P2 & I2 & F2 & R2).
  split; [eapply only_calls_trans; eassumption|].
  split; [congruence|]. split; [congruence|]. split; [congruence|].
  intros n. now rewrite R2.
Qed.

Lemma process_atom_failure_gently (depth : nat) (atom : Atom)
  (failure : Result) (w : World) :
  gently resume_call w
         (snd (_process_atom_failure self depth atom failure w)).
Proof.
  destruct (process_atom_failure_effect self depth atom failure w)
    as (Hf & _ & Hr & _ & Hp & Hi & Hc).
  split; [|repeat split; try assumption; intros n; now rewrite Hr].
  apply (only_calls_weaken escalation_call); [|exact Hc].
  intros c Hc'. unfold resume_call. now rewrite Hc'.
Qed.

Lemma reset_node_gently (a : Atom) (w : World) :
  gently (fun c => batch_call c && resume_call c) w
         (snd (_reset_node st.EXECUTE a w)).
Proof.
  unfold _reset_node.
  destruct (kind a); simpl; try apply gently_refl;
    (split; [|repeat split]);
    (eexists; split; [simpl; rewrite <- app_assoc; reflexivity|reflexivity]).
Qed.

Lemma retry_subflow_gently (retry : Atom) (w : World) :
  gently (fun c => batch_call c && resume_call c) w
         (snd (_retry_subflow self retry w)).
Proof.
  unfold _retry_subflow, _reset_nodes.
  apply (gently_trans _ w (set_atom_intention (name retry) st.EXECUTE w)).
  - split; [|repeat split].
    now apply (only_calls_one _
                 (storage_set_atom_intention (name retry) st.EXECUTE)).
  - apply (for_each_preorder
             (fun w1 w2 =>
                gently (fun c => batch_call c && resume_call c) w1 w2));
      [intros; apply gently_refl|intros; eapply gently_trans; eassumption
      |apply reset_node_gently].
Qed.

Lemma gently_weaken (p q : Call -> bool) (w w' : World) :
  (forall c, p c = true -> q c = true) -> gently p w w' -> gently q w w'.
Proof.
  intros Hpq (C & rest). split; [|exact rest].
  now apply (only_calls_weaken p).
Qed.

Lemma prepare_flow_for_resume_gently (w : World) :
  gently resume_call w
         (snd (_prepare_flow_for_resume self recursion_limit w)).
Proof.
  unfold _prepare_flow_for_resume.
  match goal with
  | |- context [for_each ?body ?l w] =>
      assert (H1 : gently resume_call w (snd (for_each body l w)));
      [|destruct (for_each body l w) as [[[]|e] w1]; simpl in H1;
        [|exact H1]]
  end.
  { apply (for_each_preorder (fun w1 w2 => gently resume_call w1 w2));
      [intros; apply gently_refl|intros; eapply gently_trans; eassumption|].
    intros a w0.
    destruct (st.eqb (get_state a w0) st.FAILURE);
      [apply process_atom_failure_gently|apply gently_refl]. }
  match goal with
  | |- context [for_each ?body ?l w1] =>
      assert (H2 : gently resume_call w1 (snd (for_each body l w1)));
      [|destruct (for_each body l w1) as [[[]|e] w2]; simpl in H2;
        simpl; exact (gently_trans _ _ _ _ H1 H2)]
  end.
  apply (for_each_preorder (fun w1 w2 => gently resume_call w1 w2));
    [intros; apply gently_refl|intros; eapply gently_trans; eassumption|].
  intros a w0.
  apply (gently_weaken (fun c => batch_call c && resume_call c));
    [|apply retry_subflow_gently].
  intros c Hc. apply andb_prop in Hc. tauto.
Qed.

(** X8.  The resume step only asks retry controllers, writes intentions
    and sets states: it schedules nothing, persists no outcome, waits for
    nothing and asks the Analyzer for no ready node; it hands out and
    retires no future and keeps the state of the flow and the results. *)
Theorem prepare_flow_for_resume_footprint :
  forall w : World,
    only_calls resume_call w
               (snd (_prepare_flow_for_resume self recursion_limit w))
    /\ pending (snd (_prepare_flow_for_resume self recursion_limit w))
       = pending w
    /\ issued (snd (_prepare_flow_for_resume self recursion_limit w))
       = issued w
    /\ flow_state (storage (snd (_prepare_flow_for_resume self
                                   recursion_limit w)))
       = flow_state (storage w)
    /\ forall n,
        atom_result (storage (snd (_prepare_flow_for_resume self
                                     recursion_limit w))) n
        = atom_result (storage w) n.
Proof. exact prepare_flow_for_resume_gently. Qed.

(** Only calls that [p] allows, and no future handed out or retired. *)
Local Abbreviation calmly p w w' :=
  (only_calls p w w' /\ pending w' = pending w /\ issued w' = issued w).

Lemma calmly_refl (p : Call -> bool) (w : World) : calmly p w w.
Proof. split; [apply only_calls_refl|]. split; reflexivity. Qed.

Lemma calmly_trans (p : Call -> bool) (w1 w2 w3 : World) :
  calmly p w1 w2 -> calmly p w2 w3 -> calmly p w1 w3.
Proof.
  intros (C1 & P1 & I1) (C2 & P2 & I2).
  split; [eapply only_calls_trans; eassumption|]. split; congruence.
Qed.

Lemma calmly_one (p : Call -> bool) (c : Call) (s : Storage) (w : World) :
  p c = true -> calmly p w (called c (with_storage s w)).
Proof.
  intros Hp. split; [|split; reflexivity].
  now apply (only_calls_one p c).
Qed.

Lemma analyze_try_calmly (future : Future) (failures : list Failure)
  (w : World) :
  calmly analysis_call w
         (snd (analyze_try self recursion_limit future failures w)).
Proof.
  unfold analyze_try, result.
  assert (H1 : calmly analysis_call w (called (future_result future) w)).
  { apply (calmly_one analysis_call (future_result future) (storage w) w).
    reflexivity. }
  destruct (result_response (_task_action self) future w) as [res|e];
    [|exact H1].
  set (w1 := called (future_result future) w) in *.
  assert (H2 : calmly analysis_call w
                 (snd match kind (fut_node future) with
                      | BaseTask =>
                          _complete_task self (fut_node future)
                                         (fut_event future) res w1
                      | _ => (Ok tt, w1)
                      end)).
  { destruct (kind (fut_node future)); try exact H1.
    apply (calmly_trans _ _ _ _ H1).
    unfold _complete_task, complete_execution, complete_reversion, persist.
    destruct (fut_event future);
      apply (calmly_one analysis_call _ _ w1); reflexivity. }
  destruct (match kind (fut_node future) with
            | BaseTask => _ | _ => _ end) as [[[]|e] w2];
    simpl in H2; [|exact H2].
  destruct res as [v|f]; [exact H2|].
  destruct (fut_event future); [|exact H2].
  destruct (process_atom_failure_effect self recursion_limit
              (fut_node future) (Fail f) w2)
    as (_ & _ & _ & _ & Hp & Hi & Hc).
  assert (H3 : calmly analysis_call w2
                 (snd (_process_atom_failure self recursion_limit
                         (fut_node future) (Fail f) w2))).
  { split; [|split; assumption].
    apply (only_calls_weaken escalation_call); [|exact Hc].
    intros c Hc'. unfold analysis_call.
    destruct c; try discriminate; reflexivity. }
  destruct (_process_atom_failure self recursion_limit (fut_node future)
              (Fail f) w2) as [[[]|e] w3];
    simpl in *; exact (calmly_trans _ _ _ _ H2 H3).
Qed.

Lemma analyze_future_calmly (future : Future) (next_nodes : list Atom)
  (failures : list Failure) (w : World) :
  calmly analysis_call w
         (snd (analyze_future self recursion_limit future next_nodes
                 failures w)).
Proof.
  unfold analyze_future.
  generalize (analyze_try_calmly future failures w).
  destruct (analyze_try self recursion_limit future failures w)
    as [[[node|e] failures1] w1]; simpl; intros H1; [|exact H1].
  assert (H2 : calmly analysis_call w1
                 (called (analyzer_get_next_nodes (Some node)) w1)).
  { apply (calmly_one analysis_call _ (storage w1) w1). reflexivity. }
  unfold get_next_nodes.
  destruct (get_next_nodes_answer (_analyzer self) (Some node) w1);
    simpl; exact (calmly_trans _ _ _ _ H1 H2).
Qed.

Lemma analyze_calmly (done : list Future) :
  forall (next_nodes : list Atom) (failures : list Failure) (w : World),
    calmly analysis_call w
           (snd (analyze self recursion_limit done next_nodes failures w)).
Proof.
  induction done as [|future done IH]; intros next_nodes failures w; simpl.
  - apply calmly_refl.
  - generalize (analyze_future_calmly future next_nodes failures w).
    destruct (analyze_future self recursion_limit future next_nodes
                failures w) as [[nodes1 failures1] w1]; simpl; intros H1.
    exact (calmly_trans _ _ _ _ H1 (IH nodes1 failures1 w1)).
Qed.

(** X9.  The analyzing step only resolves futures, persists outcomes of
    tasks, escalates failures and asks the Analyzer for successors: it
    schedules nothing, waits for nothing, sets no state itself, and hands
    out or retires no future. *)
Theorem analyze_footprint :
  forall (done : list Future) (next_nodes : list Atom)
         (failures : list Failure) (w : World),
    only_calls analysis_call w
               (snd (analyze self recursion_limit done next_nodes failures w))
    /\ pending (snd (analyze self recursion_limit done next_nodes
                       failures w)) = pending w
    /\ issued (snd (analyze self recursion_limit done next_nodes
                      failures w)) = issued w.
Proof. exact analyze_calmly. Qed.

Lemma submit_only_calls (c : Call) (resp : Response) (node : Atom)
  (event : ex.event) (w : World) :
  batch_call c = true ->
  only_calls batch_call w (snd (submit c resp node event w)).
Proof.
  intros Hc. unfold submit.
  destruct (snd resp); simpl; now apply (only_calls_one batch_call c).
Qed.

Lemma schedule_node_only_calls (node : Atom) (w : World) :
  only_calls batch_call w (snd (_schedule_node self node w)).
Proof.
  unfold _schedule_node, _schedule_task, _schedule_retry.
  destruct (kind node); [| |apply only_calls_refl].
  - destruct (get_atom_intention (name node) w);
      try apply only_calls_refl; now apply submit_only_calls.
  - destruct (get_atom_intention (name node) w);
      try apply only_calls_refl; try (now apply submit_only_calls).
    assert (H1 : only_calls batch_call w
                   (snd (_retry_subflow self node
                           (retry_change_state node st.RETRYING w)))).
    { eapply only_calls_trans;
        [|apply (only_calls_weaken (fun c => batch_call c && resume_call c));
          [|apply retry_subflow_gently]].
      - now apply (only_calls_one batch_call
                     (retry_action_change_state node st.RETRYING)).
      - intros c Hc. apply andb_prop in Hc. tauto. }
    destruct (_retry_subflow self node
                (retry_change_state node st.RETRYING w)) as [[[]|e] w1];
      simpl in *; [|exact H1].
    eapply only_calls_trans; [exact H1|]. now apply submit_only_calls.
Qed.

Lemma schedule_only_calls (nodes : list Atom) (w : World) :
  only_calls batch_call w (snd (_schedule self nodes w)).
Proof.
  unfold _schedule. generalize (@nil Future).
  revert w. induction nodes as [|node nodes IH]; intros w futures; simpl.
  - apply only_calls_refl.
  - generalize (schedule_node_only_calls node w).
    destruct (_schedule_node self node w) as [[f|e] w1]; simpl; intros H1;
      [|exact H1].
    eapply only_calls_trans; [exact H1|apply IH].
Qed.

(** X10.  Scheduling a batch only asks the proxies to start work and, for
    a retry controller to retry, sets states and writes the intention
    EXECUTE.  It persists no outcome, asks no retry controller what to do,
    waits for nothing, resolves no future and asks the Analyzer for no
    ready node: [get_next_nodes] is not called.  (What it reads of the
    Analyzer, the guarded subgraph of the controller that [_retry_subflow]
    re-arms, is topology and not an entry of the log of calls.) *)
Theorem schedule_footprint :
  forall (nodes : list Atom) (w : World),
    only_calls batch_call w (snd (_schedule self nodes w)).
Proof. exact schedule_only_calls. Qed.

Lemma while_not_done_calmly (timeout : nat) (not_done : list Future)
  (failures : list Failure) (w : World) :
  calmly ready_query w
         (world_of (while_not_done self timeout not_done failures w)).
Proof.
  unfold while_not_done, conclude.
  destruct not_done; [|apply calmly_refl].
  destruct failures as [|f1 [|f2 failures]]; simpl; try apply calmly_refl.
  assert (H : calmly ready_query w (called (analyzer_get_next_nodes None) w)).
  { apply (calmly_one ready_query _ (storage w) w). reflexivity. }
  destruct (get_next_nodes_answer (_analyzer self) None w) as [[|a l]|e];
    try destruct (is_success (_analyzer self) _); exact H.
Qed.

(** X11.  Resuming the generator asks no proxy to start work and hands out
    no future unless it was suspended at a SCHEDULING marker and the flow
    is RUNNING when it is resumed. *)
Theorem schedules_only_when_running :
  forall (g : Gen) (w : World),
    at_a_scheduling g = false \/ is_running w = false ->
    only_calls no_scheduling_call w (world_of (next self recursion_limit g w))
    /\ issued (world_of (next self recursion_limit g w)) = issued w.
Proof.
  assert (Hweak : forall p w w',
             (forall c, p c = true -> no_scheduling_call c = true) ->
             calmly p w w' ->
             only_calls no_scheduling_call w w' /\ issued w' = issued w).
  { intros p w w' Hp (C & _ & I). split; [|exact I].
    now apply (only_calls_weaken p). }
  assert (Hready : forall c, ready_query c = true ->
                             no_scheduling_call c = true).
  { intros c. destruct c as [| | | | | | | | | | | |[a|]]; simpl;
      try discriminate; reflexivity. }
  assert (Hanalysis : forall c, analysis_call c = true ->
                                no_scheduling_call c = true).
  { intros c. destruct c as [| | | | | | | | | | | |[a|]]; simpl;
      try discriminate; reflexivity. }
  assert (Hresume : forall c, resume_call c = true ->
                              no_scheduling_call c = true).
  { intros c. destruct c; simpl; try discriminate; reflexivity. }
  intros g w Hquiet.
  destruct g as [timeout|timeout|timeout next_nodes|timeout not_done failures
                 |timeout done not_done failures
                 |timeout next_nodes not_done failures|];
    cbn [next at_a_scheduling] in *.
  - simpl. apply (Hweak ready_query); [exact Hready|apply calmly_refl].
  - destruct (prepare_flow_for_resume_gently w) as (C & P & I & _).
    destruct (_prepare_flow_for_resume self recursion_limit w)
      as [[next_nodes|e] w1]; simpl in *.
    + assert (H1 : calmly no_scheduling_call w w1).
      { split; [|split; assumption].
        now apply (only_calls_weaken resume_call). }
      assert (H2 : calmly no_scheduling_call w1
                     (called (analyzer_get_next_nodes None) w1)).
      { apply (calmly_one no_scheduling_call _ (storage w1) w1).
        reflexivity. }
      destruct (get_next_nodes_answer (_analyzer self) None w1); simpl;
        destruct (calmly_trans _ _ _ _ H1 H2) as (C' & _ & I');
        split; assumption.
    + split; [|exact I]. now apply (only_calls_weaken resume_call).
  - destruct Hquiet as [Hq|Hq]; [discriminate|]. rewrite Hq.
    apply (Hweak ready_query); [exact Hready|apply while_not_done_calmly].
  - simpl. split; [|reflexivity].
    now apply (only_calls_one no_scheduling_call
                 (task_action_wait_for_any not_done timeout)).
  - destruct (analyze_calmly done [] failures w) as (C & P & I).
    destruct (analyze self recursion_limit done [] failures w)
      as [[next_nodes failures1] w1]; simpl in *.
    assert (H1 : calmly no_scheduling_call w w1).
    { split; [|split; assumption].
      now apply (only_calls_weaken analysis_call). }
    destruct (nonempty next_nodes && empty failures1 && is_running w1).
    + simpl. destruct H1 as (C' & _ & I'). split; assumption.
    + assert (H2 : calmly no_scheduling_call w1
                     (world_of (while_not_done self timeout not_done
                                  failures1 w1))).
      { destruct (while_not_done_calmly timeout not_done failures1 w1)
          as (C2 & P2 & I2).
        split; [|split; assumption].
        now apply (only_calls_weaken ready_query). }
      destruct (calmly_trans _ _ _ _ H1 H2) as (C' & _ & I').
      split; assumption.
  - destruct Hquiet as [Hq|Hq]; [discriminate|]. rewrite Hq.
    apply (Hweak ready_query); [exact Hready|apply while_not_done_calmly].
  - simpl. apply (Hweak ready_query); [exact Hready|apply calmly_refl].
Qed.

End Footprints.

Lemma schedules_only_when_running_witness :
  issued (world_of (next (Demo.action Demo.two_tasks) Demo.limit
                         (at_first_SCHEDULING 60 [Demo.A; Demo.B])
                         (Demo.world Demo.suspended)))
  = 0.
Proof.
  apply (schedules_only_when_running (Demo.action Demo.two_tasks) Demo.limit
           (at_first_SCHEDULING 60 [Demo.A; Demo.B])
           (Demo.world Demo.suspended)).
  right. reflexivity.
Defined.

(** ** Turns of the loop *)

Section Turns.

Variable self : FutureGraphAction.
Variable recursion_limit : nat.

Local Abbreviation next' := (next self recursion_limit).

Lemma filter_none {A : Type} (p : A -> bool) (l : list A) :
  (forall x, In x l -> p x = false) -> filter p l = [].
Proof.
  induction l as [|a l IH]; simpl; intros H; [reflexivity|].
  rewrite (H a (or_introl eq_refl)). apply IH. auto.
Qed.

Lemma filter_all {A : Type} (p : A -> bool) (l : list A) :
  (forall x, In x l -> p x = true) -> filter p l = l.
Proof.
  induction l as [|a l IH]; simpl; intros H; [reflexivity|].
  rewrite (H a (or_introl eq_refl)). f_equal. apply IH. auto.
Qed.

(** X12.  A wait in which no future resolves is a poll: the generator
    yields ANALYZING with an empty [done], and resumed from there, whatever
    happened to the store meanwhile, it makes no call and yields WAITING
    again with the same futures and the same failures.  The wait itself
    leaves the store and the pending futures as they were. *)
Theorem wait_without_resolution_polls :
  forall (timeout : nat) (not_done : list Future) (failures : list Failure)
         (w : World),
    not_done <> [] ->
    (forall f, In f not_done ->
               resolved (_task_action self) timeout f w = false) ->
    exists w1,
      next' (at_WAITING timeout not_done failures) w
      = Yield st.ANALYZING (at_ANALYZING timeout [] not_done failures) w1
      /\ storage w1 = storage w
      /\ pending w1 = pending w
      /\ forall w2,
          next' (at_ANALYZING timeout [] not_done failures) w2
          = Yield st.WAITING (at_WAITING timeout not_done failures) w2.
Proof.
  intros timeout not_done failures w Hne Hnone.
  cbn [next]. unfold wait_for_any.
  rewrite (filter_none _ not_done Hnone).
  rewrite (filter_all (fun f => negb _) not_done)
    by (intros f Hf; now rewrite (Hnone f Hf)).
  eexists. split; [reflexivity|]. simpl.
  split; [reflexivity|]. split.
  - apply filter_all. reflexivity.
  - intros w2. unfold empty.
    destruct failures; simpl;
      destruct not_done; try congruence; reflexivity.
Qed.

End Turns.

Lemma wait_without_resolution_polls_witness :
  exists w1,
    next (Demo.action Demo.stuck) Demo.limit
      (at_WAITING 60 [mkFuture 0 Demo.A ex.EXECUTED] [])
      (Demo.world Demo.fresh)
    = Yield st.ANALYZING
            (at_ANALYZING 60 [] [mkFuture 0 Demo.A ex.EXECUTED] []) w1
    /\ storage w1 = storage (Demo.world Demo.fresh).
Proof.
  destruct (wait_without_resolution_polls (Demo.action Demo.stuck) Demo.limit
              60 [mkFuture 0 Demo.A ex.EXECUTED] [] (Demo.world Demo.fresh))
    as (w1 & Hnext & Hstore & _).
  - discriminate.
  - reflexivity.
  - exists w1. split; assumption.
Defined.

(** ** After a failure was captured *)

Section AfterFailure.

Variable self : FutureGraphAction.
Variable recursion_limit : nat.
Variable others : nat -> Storage -> Storage.

Local Abbreviation next' := (next self recursion_limit).

Lemma next_after_failure (g : Gen) (w : World) :
  holds_a_failure g ->
  match next' g w with
  | Yield m g' _ =>
      loop_marker m
      /\ holds_a_failure g'
      /\ exists extra, failures_of g' = failures_of g ++ extra
  | Raise e _ =>
      exists extra, reraise_if_any (failures_of g ++ extra) = Some e
  | StopIteration _ => False
  end.
Proof.
  destruct g as [timeout|timeout|timeout next_nodes|timeout not_done failures
                 |timeout done not_done failures
                 |timeout next_nodes not_done failures|];
    cbn [next holds_a_failure failures_of]; try tauto; intros Hfail.
  - destruct (wait_for_any self not_done timeout w) as [[done nd] w1].
    split; [now right|]. split; [exact Hfail|].
    exists []. now rewrite app_nil_r.
  - rewrite (analyze_appends self recursion_limit done [] failures w).
    destruct (analyze self recursion_limit done [] [] w)
      as [[next_nodes batch] w1].
    assert (Hsome : failures ++ batch <> []).
    { destruct failures; [congruence|discriminate]. }
    replace (empty (failures ++ batch)) with false
      by (destruct (failures ++ batch); [congruence|reflexivity]).
    rewrite andb_false_r. simpl.
    unfold while_not_done, conclude.
    destruct not_done as [|f not_done].
    + remember (failures ++ batch) as captured eqn:Hcaptured.
      destruct captured as [|f1 [|f2 l]]; [congruence| |]; simpl;
        exists batch; rewrite <- Hcaptured; reflexivity.
    + split; [now left|]. split; [exact Hsome|]. now exists batch.
Qed.

Lemma iterate_invariant_error
  (P : list st.state -> Gen -> World -> Prop)
  (F : list st.state -> Error -> World -> Prop)
  (R : list st.state -> World -> Prop) :
  (forall ms g w k, P ms g w -> P ms g (interfere others k w)) ->
  (forall ms g w m g' w',
      P ms g w -> next' g w = Yield m g' w' -> P (ms ++ [m]) g' w') ->
  (forall ms g w e w', P ms g w -> next' g w = Raise e w' -> F ms e w') ->
  (forall ms g w w', P ms g w -> next' g w = StopIteration w' -> R ms w') ->
  forall n ms g w,
    P ms g w ->
    match iterate self recursion_limit others n ms g w with
    | Suspended ms' g' w' => P ms' g' w'
    | Failed ms' e w' => F ms' e w'
    | Returned ms' w' => R ms' w'
    end.
Proof.
  intros Henv Hyield Hraise Hstop.
  induction n as [|n IH]; intros ms g w HP; simpl; [exact HP|].
  pose proof (Henv ms g w (List.length ms) HP) as HP'.
  destruct (next' g (interfere others (List.length ms) w))
    as [m g' w'|e w'|w'] eqn:Hnext.
  - apply IH. exact (Hyield _ _ _ _ _ _ HP' Hnext).
  - exact (Hraise _ _ _ _ _ HP' Hnext).
  - exact (Hstop _ _ _ _ HP' Hnext).
Qed.

(** X13.  Once a failure has been captured the run schedules nothing more
    and never ends with a terminal marker: from a point of the loop where
    [failures] is not empty every further marker is WAITING or ANALYZING,
    the failures captured so far are kept, the generator never returns,
    and when the loop ends it raises what [reraise_if_any] makes of the
    failures, the earlier ones included. *)
Theorem captured_failure_ends_in_raise :
  forall (n : nat) (ms : list st.state) (g : Gen) (w : World),
    holds_a_failure g ->
    match iterate self recursion_limit others n ms g w with
    | Suspended ms' g' _ =>
        holds_a_failure g'
        /\ (exists extra, failures_of g' = failures_of g ++ extra)
        /\ exists more, ms' = ms ++ more /\ Forall loop_marker more
    | Failed ms' e _ =>
        (exists extra, reraise_if_any (failures_of g ++ extra) = Some e)
        /\ exists more, ms' = ms ++ more /\ Forall loop_marker more
    | Returned _ _ => False
    end.
Proof.
  intros n ms g w Hfail.
  apply (iterate_invariant_error
           (fun ms' g' _ =>
              holds_a_failure g'
              /\ (exists extra, failures_of g' = failures_of g ++ extra)
              /\ exists more, ms' = ms ++ more /\ Forall loop_marker more)
           (fun ms' e _ =>
              (exists extra,
                  reraise_if_any (failures_of g ++ extra) = Some e)
              /\ exists more, ms' = ms ++ more /\ Forall loop_marker more)
           (fun _ _ => False)).
  - intros ms' g' w' k H. exact H.
  - intros ms' g' w' m g'' w'' (Hf & (extra & Hextra) & more & -> & Hmore)
           Hnext.
    generalize (next_after_failure g' w' Hf). rewrite Hnext.
    intros (Hm & Hf' & extra' & Hextra').
    split; [exact Hf'|]. split.
    + exists (extra ++ extra'). now rewrite Hextra', Hextra, app_assoc.
    + exists (more ++ [m]). rewrite app_assoc. split; [reflexivity|].
      apply Forall_app. split; [exact Hmore|]. now constructor.
  - intros ms' g' w' e w'' (Hf & (extra & Hextra) & Hms) Hnext.
    generalize (next_after_failure g' w' Hf). rewrite Hnext.
    intros (extra' & Hextra').
    split; [|exact Hms].
    exists (extra ++ extra'). now rewrite app_assoc, <- Hextra.
  - intros ms' g' w' w'' (Hf & _) Hnext.
    generalize (next_after_failure g' w' Hf). now rewrite Hnext.
  - split; [exact Hfail|]. split.
    + exists []. now rewrite app_nil_r.
    + exists []. rewrite app_nil_r. split; [reflexivity|constructor].
Qed.

End AfterFailure.

Lemma captured_failure_ends_in_raise_witness :
  match iterate (Demo.action Demo.two_tasks) Demo.limit Demo.nobody 3 []
                (at_WAITING 60 [mkFuture 0 Demo.A ex.EXECUTED] [Demo.boom])
                (Demo.world Demo.fresh) with
  | Failed ms e _ =>
      ms = [st.ANALYZING]
      /\ e = Raising (Exception "boom")
      /\ exists extra, reraise_if_any ([Demo.boom] ++ extra) = Some e
  | _ => False
  end.
Proof.
  generalize (captured_failure_ends_in_raise (Demo.action Demo.two_tasks)
                Demo.limit Demo.nobody 3 []
                (at_WAITING 60 [mkFuture 0 Demo.A ex.EXECUTED] [Demo.boom])
                (Demo.world Demo.fresh)).
  destruct (iterate (Demo.action Demo.two_tasks) Demo.limit Demo.nobody 3 []
                    (at_WAITING 60 [mkFuture 0 Demo.A ex.EXECUTED]
                       [Demo.boom])
                    (Demo.world Demo.fresh)) as [ms g w|ms e w|ms w] eqn:E;
    vm_compute in E; try discriminate E.
  injection E as <- <- <-.
  intros H. destruct H as [Hraise _]; [discriminate|].
  split; [reflexivity|]. split; [reflexivity|]. exact Hraise.
Defined.

(** ** What the analyzing step persists *)

Section Persisting.

Variable self : FutureGraphAction.
Variable recursion_limit : nat.

Lemma persists_within_more (done1 done2 : list Future) (c : Call) :
  (forall f, In f done1 -> In f done2) ->
  persists_within done1 c = true -> persists_within done2 c = true.
Proof.
  intros Hincl. destruct c; simpl; auto;
    rewrite !existsb_exists; intros (f & Hf & Hp); exists f; auto.
Qed.

Lemma analyze_try_persists (future : Future) (failures : list Failure)
  (w : World) :
  only_calls (persists_within [future]) w
             (snd (analyze_try self recursion_limit future failures w)).
Proof.
  unfold analyze_try, result.
  assert (H1 : only_calls (persists_within [future]) w
                 (called (future_result future) w)).
  { now apply (only_calls_one _ (future_result future)). }
  destruct (result_response (_task_action self) future w) as [res|e];
    [|exact H1].
  assert (H2 : only_calls (persists_within [future]) w
                 (snd match kind (fut_node future) with
                      | BaseTask =>
                          _complete_task self (fut_node future)
                                         (fut_event future) res
                                         (called (future_result future) w)
                      | _ => (Ok tt, called (future_result future) w)
                      end)).
  { destruct (kind (fut_node future)) eqn:Hkind; try exact H1.
    eapply only_calls_trans; [exact H1|].
    unfold _complete_task, complete_execution, complete_reversion, persist.
    destruct (fut_event future) eqn:Hevent; simpl;
      (eapply only_calls_one; [|reflexivity]);
      simpl; unfold future_of_task, is_task; rewrite Hkind, Hevent;
      destruct (Atom_eq_dec (fut_node future) (fut_node future));
      try congruence; reflexivity. }
  destruct (match kind (fut_node future) with
            | BaseTask => _ | _ => _ end) as [[[]|e] w2];
    simpl in H2; [|exact H2].
  destruct res as [v|f]; [exact H2|].
  destruct (fut_event future); [|exact H2].
  destruct (process_atom_failure_effect self recursion_limit
              (fut_node future) (Fail f) w2)
    as (_ & _ & _ & _ & _ & _ & Hc).
  assert (H3 : only_calls (persists_within [future]) w2
                 (snd (_process_atom_failure self recursion_limit
                         (fut_node future) (Fail f) w2))).
  { apply (only_calls_weaken escalation_call); [|exact Hc].
    intros c Hc'. destruct c; try discriminate; reflexivity. }
  destruct (_process_atom_failure self recursion_limit (fut_node future)
              (Fail f) w2) as [[[]|e] w3];
    simpl in *; exact (only_calls_trans _ _ _ _ H2 H3).
Qed.

Lemma analyze_future_persists (future : Future) (next_nodes : list Atom)
  (failures : list Failure) (w : World) :
  only_calls (persists_within [future]) w
             (snd (analyze_future self recursion_limit future next_nodes
                     failures w)).
Proof.
  unfold analyze_future.
  generalize (analyze_try_persists future failures w).
  destruct (analyze_try self recursion_limit future failures w)
    as [[[node|e] failures1] w1]; simpl; intros H1; [|exact H1].
  assert (H2 : only_calls (persists_within [future]) w1
                 (called (analyzer_get_next_nodes (Some node)) w1)).
  { now apply (only_calls_one _ (analyzer_get_next_nodes (Some node))). }
  unfold get_next_nodes.
  destruct (get_next_nodes_answer (_analyzer self) (Some node) w1);
    simpl; exact (only_calls_trans _ _ _ _ H1 H2).
Qed.

(** X14.  The analyzing step persists outcomes only for tasks that have a
    future in [done], as an execution when the event of that future is
    EXECUTED and as a reversion when it is REVERTED; the completion of a
    retry controller is never persisted. *)
Theorem analyze_persists_only_done_tasks :
  forall (done : list Future) (next_nodes : list Atom)
         (failures : list Failure) (w : World),
    only_calls (persists_within done) w
               (snd (analyze self recursion_limit done next_nodes
                       failures w)).
Proof.
  induction done as [|future done IH]; intros next_nodes failures w; simpl.
  - apply only_calls_refl.
  - generalize (analyze_future_persists future next_nodes failures w).
    destruct (analyze_future self recursion_limit future next_nodes
                failures w) as [[nodes1 failures1] w1]; simpl; intros H1.
    eapply only_calls_trans.
    + apply (only_calls_weaken (persists_within [future])); [|exact H1].
      intros c. apply persists_within_more.
      intros f [<-|[]]. now left.
    + apply (only_calls_weaken (persists_within done)); [|apply IH].
      intros c. apply persists_within_more.
      intros f Hf. now right.
Qed.

End Persisting.

(** ** Resuming *)

Section Resuming.

Variable self : FutureGraphAction.
Variable recursion_limit : nat.

Lemma st_eqb_eq (a b : st.state) : st.eqb a b = true <-> a = b.
Proof.
  unfold st.eqb. destruct (st.state_eq_dec a b); split; congruence.
Qed.

Lemma collect_in_flight (w : World) (node : Atom) (l : list Atom) :
  forall acc,
    In node
       (fold_left
          (fun next_nodes n =>
             if st.eqb (get_state n w) st.RUNNING
                || st.eqb (get_state n w) st.REVERTING
             then add_node n next_nodes else next_nodes)
          l acc)
    <-> In node acc
        \/ (In node l
            /\ (get_state node w = st.RUNNING
                \/ get_state node w = st.REVERTING)).
Proof.
  induction l as [|a l IH]; intros acc; simpl; [tauto|].
  rewrite IH.
  destruct (st.eqb (get_state a w) st.RUNNING
            || st.eqb (get_state a w) st.REVERTING) eqn:E.
  - apply orb_true_iff in E. rewrite !st_eqb_eq in E.
    unfold add_node. rewrite set_add_iff.
    intuition (subst; auto).
  - apply orb_false_iff in E. destruct E as [E1 E2].
    split; [tauto|].
    intros [H|[[<-|H] Hs]]; [tauto| |tauto].
    exfalso. destruct Hs as [Hs|Hs];
      apply st_eqb_eq in Hs; congruence.
Qed.

(** X15.  When the resume step ends normally, the nodes it returns are the
    atoms of the graph whose state, after the failures were escalated and
    the retrying controllers re-armed, is RUNNING or REVERTING. *)
Theorem prepare_flow_for_resume_returns_in_flight :
  forall (w w1 : World) (next_nodes : list Atom),
    _prepare_flow_for_resume self recursion_limit w = (Ok next_nodes, w1) ->
    forall node,
      In node next_nodes
      <-> In node (iterate_all_nodes (_analyzer self))
          /\ (get_state node w1 = st.RUNNING
              \/ get_state node w1 = st.REVERTING).
Proof.
  intros w w1 next_nodes. unfold _prepare_flow_for_resume.
  destruct (for_each _ (iterate_all_nodes (_analyzer self)) w)
    as [[[]|e] w2]; [|discriminate].
  destruct (for_each _ _ w2) as [[[]|e] w3]; [|discriminate].
  intros H. injection H as <- <-.
  intros node. rewrite collect_in_flight. simpl. tauto.
Qed.

(** X16.  On a flow with no atom in the state FAILURE and no retry
    controller in the state RETRYING the resume step changes nothing and
    calls nothing: it returns the atoms that are RUNNING or REVERTING. *)
Theorem prepare_flow_for_resume_of_clean_flow :
  forall w : World,
    (forall node, In node (iterate_all_nodes (_analyzer self)) ->
                  get_state node w <> st.FAILURE) ->
    iterate_retries (_analyzer self) st.RETRYING w = [] ->
    exists next_nodes,
      _prepare_flow_for_resume self recursion_limit w = (Ok next_nodes, w)
      /\ forall node,
          In node next_nodes
          <-> In node (iterate_all_nodes (_analyzer self))
              /\ (get_state node w = st.RUNNING
                  \/ get_state node w = st.REVERTING).
Proof.
  intros w Hclean Hretries.
  assert (Hfirst :
            for_each
              (fun node w' =>
                 if st.eqb (get_state node w') st.FAILURE
                 then _process_atom_failure self recursion_limit node
                        (storage_get (name node) w') w'
                 else (Ok tt, w'))
              (iterate_all_nodes (_analyzer self)) w = (Ok tt, w)).
  { induction (iterate_all_nodes (_analyzer self)) as [|a l IH]; simpl;
      [reflexivity|].
    destruct (st.eqb (get_state a w) st.FAILURE) eqn:E.
    - apply st_eqb_eq in E. destruct (Hclean a (or_introl eq_refl) E).
    - apply IH. intros node Hnode. apply Hclean. now right. }
  eexists. split.
  - unfold _prepare_flow_for_resume. rewrite Hfirst, Hretries. simpl.
    reflexivity.
  - intros node. rewrite collect_in_flight. simpl. tauto.
Qed.

End Resuming.

Lemma prepare_flow_for_resume_returns_in_flight_witness :
  exists next_nodes w1,
    _prepare_flow_for_resume (Demo.action Demo.two_tasks) Demo.limit
      (Demo.world Demo.interrupted) = (Ok next_nodes, w1)
    /\ In Demo.A next_nodes /\ ~ In Demo.B next_nodes.
Proof.
  destruct (_prepare_flow_for_resume (Demo.action Demo.two_tasks) Demo.limit
              (Demo.world Demo.interrupted)) as [[next_nodes|e] w1] eqn:E;
    [|vm_compute in E; discriminate E].
  exists next_nodes, w1. split; [reflexivity|].
  pose proof (prepare_flow_for_resume_returns_in_flight
                (Demo.action Demo.two_tasks) Demo.limit
                (Demo.world Demo.interrupted) w1 next_nodes E) as H.
  vm_compute in E. injection E as <- <-.
  split.
  - apply H. split; [now left|]. left. reflexivity.
  - intros Hin. apply H in Hin. destruct Hin as [_ [Hs|Hs]]; discriminate Hs.
Defined.

Lemma prepare_flow_for_resume_of_clean_flow_witness :
  exists next_nodes,
    _prepare_flow_for_resume (Demo.action Demo.two_tasks) Demo.limit
      (Demo.world Demo.interrupted)
    = (Ok next_nodes, Demo.world Demo.interrupted).
Proof.
  destruct (prepare_flow_for_resume_of_clean_flow
              (Demo.action Demo.two_tasks) Demo.limit
              (Demo.world Demo.interrupted))
    as (next_nodes & Hrun & _).
  - intros node [<-|[<-|[]]]; discriminate.
  - reflexivity.
  - exists next_nodes. exact Hrun.
Defined.

(** ** Outcomes of escalation *)

Section EscalationOutcomes.

Variable self : FutureGraphAction.

(** X17.  Escalation follows the REVERT answers upwards: [n] retry
    controllers in a row answer REVERT, up to an atom [top].  When it ends
    normally, [n] is below the recursion limit and what was done depends on
    [top] alone.  If no retry controller guards [top], or the one that does
    answers REVERT_ALL, every atom of the graph has the intention REVERT.
    If the controller answers RETRY, every atom of its guarded subgraph has
    the intention REVERT, the controller has the intention RETRY when it
    is not in its own subgraph, and every other intention is as it was.  If
    the controller answers none of RETRY, REVERT and REVERT_ALL, every
    intention is as it was.  When escalation raises, as many controllers
    as the recursion limit allows answered REVERT, the exception is that
    of the recursion limit, and every intention is as it was. *)
Theorem escalation_outcomes :
  forall (depth : nat) (atom : Atom) (failure : Result) (w : World),
  exists (n : nat) (top : Atom) (w1 : World),
    reverts_to self failure atom w n top w1
    /\ match _process_atom_failure self depth atom failure w with
       | (Ok _, w') =>
           n < depth
           /\ (((find_atom_retry (_analyzer self) top = None
                 \/ exists retry,
                      find_atom_retry (_analyzer self) top = Some retry
                      /\ fst (on_failure self retry top failure w1)
                         = r.REVERT_ALL)
                /\ forall node,
                    In node (iterate_all_nodes (_analyzer self)) ->
                    get_atom_intention (name node) w' = st.REVERT)
               \/ (exists retry,
                      find_atom_retry (_analyzer self) top = Some retry
                      /\ fst (on_failure self retry top failure w1) = r.RETRY
                      /\ (forall node,
                            In node (iterate_subgraph (_analyzer self) retry) ->
                            get_atom_intention (name node) w' = st.REVERT)
                      /\ (~ In (name retry)
                               (map name
                                    (iterate_subgraph (_analyzer self) retry)) ->
                          get_atom_intention (name retry) w' = st.RETRY)
                      /\ (forall nm,
                            nm <> name retry ->
                            ~ In nm
                                 (map name
                                      (iterate_subgraph (_analyzer self)
                                                        retry)) ->
                            get_atom_intention nm w'
                            = get_atom_intention nm w))
               \/ (exists retry v,
                      find_atom_retry (_analyzer self) top = Some retry
                      /\ fst (on_failure self retry top failure w1)
                         = r.UNRECOGNIZED v
                      /\ forall nm,
                          get_atom_intention nm w' = get_atom_intention nm w))
       | (Raised e, w') =>
           e = RuntimeError "maximum recursion depth exceeded"
           /\ n = depth
           /\ forall nm, get_atom_intention nm w' = get_atom_intention nm w
       end.
Proof.
  induction depth as [|depth IH]; intros atom failure w.
  - exists 0, atom, w. split; [constructor|]. simpl. repeat split.
  - simpl.
    destruct (find_atom_retry (_analyzer self) atom) as [retry|] eqn:Hfind.
    + destruct (on_failure_answer (_retry_action self) retry atom failure w)
        as [| | |v] eqn:Hanswer.
      * exists 0, atom, w. split; [constructor|]. split; [lia|].
        right. left. exists retry.
        split; [exact Hfind|]. split; [exact Hanswer|]. split; [|split].
        -- intros node Hnode. apply set_each_written. now apply in_map.
        -- intros Hout. rewrite set_each_other by assumption.
           apply get_set_atom_intention_same.
        -- intros nm Hne Hout. rewrite set_each_other by assumption.
           rewrite get_set_atom_intention_other by congruence.
           reflexivity.
      * destruct (IH retry failure
                     (called (retry_action_on_failure retry atom failure) w))
          as (n & top & w1 & Hchain & Hend).
        exists (S n), top, w1. split.
        -- apply (reverts_to_parent self failure atom retry w n top w1 Hfind);
             [exact Hanswer|exact Hchain].
        -- destruct (_process_atom_failure self depth retry failure
                       (called (retry_action_on_failure retry atom failure)
                               w))
             as [[[]|e] w'].
           ++ destruct Hend as [Hlt Hend]. split; [lia|exact Hend].
           ++ destruct Hend as (He & Hn & Hkeep).
              split; [exact He|]. split; [now rewrite Hn|exact Hkeep].
      * exists 0, atom, w. split; [constructor|]. split; [lia|].
        left. split.
        -- right. exists retry. split; [exact Hfind|exact Hanswer].
        -- intros node Hnode. now apply revert_all_reverts.
      * exists 0, atom, w. split; [constructor|]. split; [lia|].
        right. right. exists retry, v.
        split; [exact Hfind|]. split; [exact Hanswer|]. reflexivity.
    + exists 0, atom, w. split; [constructor|]. split; [lia|].
      left. split; [now left|].
      intros node Hnode. now apply revert_all_reverts.
Qed.

End EscalationOutcomes.

Lemma process_atom_failure_terminates_witness :
  fst (_process_atom_failure (Demo.action Demo.guarded_task) 2 Demo.T
         (Fail Demo.boom) (Demo.world Demo.fresh))
  = Ok tt.
Proof.
  apply (process_atom_failure_terminates (Demo.action Demo.guarded_task)
           Demo.depth).
  - intros atom retry. simpl.
    destruct (String.eqb (name atom) "T") eqn:E; [|discriminate].
    intros H. injection H as <-.
    unfold Demo.depth. rewrite E. simpl. constructor.
  - unfold Demo.depth. simpl. constructor.
Defined.

(** ** The timeout of the waits *)

Section Timeouts.

Variable self : FutureGraphAction.
Variable recursion_limit : nat.
Variable others : nat -> Storage -> Storage.

Local Abbreviation next' := (next self recursion_limit).

Lemma while_not_done_waits_with (t : nat) (not_done : list Future)
  (failures : list Failure) (w : World) :
  only_calls (waits_with t) w
             (world_of (while_not_done self t not_done failures w))
  /\ match while_not_done self t not_done failures w with
     | Yield _ g' _ => timeout_of g' = Some t \/ g' = at_terminal
     | _ => True
     end.
Proof.
  split.
  - apply (only_calls_weaken ready_query);
      [|apply (while_not_done_calmly self t not_done failures w)].
    intros c. destruct c; try discriminate; reflexivity.
  - unfold while_not_done, conclude.
    destruct not_done; [|now left].
    destruct failures as [|f1 [|f2 failures]]; simpl; try exact I.
    destruct (get_next_nodes_answer (_analyzer self) None w) as [[|a l]|e];
      try destruct (is_success (_analyzer self) _); try exact I; now right.
Qed.

Lemma next_waits_with (g : Gen) (w : World) (t : nat) :
  timeout_of g = Some t ->
  only_calls (waits_with t) w (world_of (next' g w))
  /\ match next' g w with
     | Yield _ g' _ => timeout_of g' = Some t \/ g' = at_terminal
     | _ => True
     end.
Proof.
  assert (Hresume : forall c, resume_call c = true -> waits_with t c = true).
  { intros c. destruct c; try discriminate; reflexivity. }
  assert (Hanalysis : forall c, analysis_call c = true ->
                                waits_with t c = true).
  { intros c. destruct c; try discriminate; reflexivity. }
  assert (Hbatch : forall c, batch_call c = true -> waits_with t c = true).
  { intros c. destruct c; try discriminate; reflexivity. }
  assert (Hschedule : forall (k : list Future -> list Future) nodes w0,
             only_calls (waits_with t) w0
               (world_of
                  (let '(more, failures1, w1) := _schedule self nodes w0 in
                   while_not_done self t (k more) failures1 w1))
             /\ match
                  (let '(more, failures1, w1) := _schedule self nodes w0 in
                   while_not_done self t (k more) failures1 w1)
                with
                | Yield _ g' _ => timeout_of g' = Some t \/ g' = at_terminal
                | _ => True
                end).
  { intros k nodes w0.
    generalize (schedule_only_calls self nodes w0).
    destruct (_schedule self nodes w0) as [[more failures1] w1]; simpl.
    intros H1.
    destruct (while_not_done_waits_with t (k more) failures1 w1)
      as [H2 H3].
    split; [|exact H3].
    eapply only_calls_trans; [|exact H2].
    now apply (only_calls_weaken batch_call). }
  destruct g as [timeout|timeout|timeout next_nodes|timeout not_done failures
                 |timeout done not_done failures
                 |timeout next_nodes not_done failures|];
    cbn [next timeout_of]; try discriminate; intros Ht;
    injection Ht as ->.
  - destruct (prepare_flow_for_resume_gently self recursion_limit w)
      as (C & _).
    apply (only_calls_weaken resume_call _ _ _ Hresume) in C.
    destruct (_prepare_flow_for_resume self recursion_limit w)
      as [[next_nodes|e] w1]; simpl in *; [|split; [exact C|exact I]].
    assert (C2 : only_calls (waits_with t) w
                   (called (analyzer_get_next_nodes None) w1)).
    { eapply only_calls_trans; [exact C|].
      now apply (only_calls_one _ (analyzer_get_next_nodes None)). }
    unfold get_next_nodes.
    destruct (get_next_nodes_answer (_analyzer self) None w1); simpl.
    + split; [exact C2|now left].
    + split; [exact C2|exact I].
  - destruct (is_running w).
    + exact (Hschedule (fun more => more) next_nodes w).
    + apply while_not_done_waits_with.
  - simpl. split; [|now left].
    apply (only_calls_one _ (task_action_wait_for_any not_done t));
      [|reflexivity].
    simpl. apply Nat.eqb_refl.
  - destruct (analyze_calmly self recursion_limit done [] failures w)
      as (C & _).
    apply (only_calls_weaken analysis_call _ _ _ Hanalysis) in C.
    destruct (analyze self recursion_limit done [] failures w)
      as [[next_nodes failures1] w1]; simpl in C.
    destruct (nonempty next_nodes && empty failures1 && is_running w1).
    + simpl. split; [exact C|now left].
    + destruct (while_not_done_waits_with t not_done failures1 w1)
        as [H2 H3].
      split; [|exact H3].
      eapply only_calls_trans; [exact C|exact H2].
  - destruct (is_running w).
    + exact (Hschedule (update_futures not_done) next_nodes w).
    + apply while_not_done_waits_with.
Qed.

(** X19.  Every wait of a run passes the timeout the generator was created
    with, or 60 when it was created with none: whatever a run has called
    since its start, its calls of [wait_for_any] carry that timeout. *)
Theorem run_waits_with_the_given_timeout :
  forall (n : nat) (timeout : option nat) (w0 : World),
    match run self recursion_limit others n timeout w0 with
    | Suspended _ _ w => only_calls (waits_with (effective_timeout timeout)) w0 w
    | Failed _ _ w => only_calls (waits_with (effective_timeout timeout)) w0 w
    | Returned _ w => only_calls (waits_with (effective_timeout timeout)) w0 w
    end.
Proof.
  intros n timeout w0. unfold run.
  set (t := effective_timeout timeout).
  assert (H :
            match iterate self recursion_limit others n []
                          (execute_iter timeout) w0 with
            | Suspended _ g w =>
                only_calls (waits_with t) w0 w
                /\ (g = at_start timeout \/ g = at_terminal
                    \/ timeout_of g = Some t)
            | Failed _ _ w => only_calls (waits_with t) w0 w
            | Returned _ w => only_calls (waits_with t) w0 w
            end).
  { apply (iterate_invariant self recursion_limit others
             (fun _ g w =>
                only_calls (waits_with t) w0 w
                /\ (g = at_start timeout \/ g = at_terminal
                    \/ timeout_of g = Some t))
             (fun _ w => only_calls (waits_with t) w0 w)
             (fun _ w => only_calls (waits_with t) w0 w)).
    - intros ms g w k H. exact H.
    - intros ms g w m g' w' [C [->|[->|Ht]]] Hnext.
      + cbn [next] in Hnext. injection Hnext as <- <- <-.
        split; [exact C|]. right. right. reflexivity.
      + discriminate Hnext.
      + destruct (next_waits_with g w t Ht) as [C' Hg'].
        rewrite Hnext in C', Hg'. simpl in C'.
        split; [eapply only_calls_trans; eassumption|]. tauto.
    - intros ms g w e w' [C [->|[->|Ht]]] Hnext; try discriminate Hnext.
      destruct (next_waits_with g w t Ht) as [C' _].
      rewrite Hnext in C'. simpl in C'.
      eapply only_calls_trans; eassumption.
    - intros ms g w w' [C [->|[->|Ht]]] Hnext; try discriminate Hnext.
      + cbn [next] in Hnext. injection Hnext as <-. exact C.
      + destruct (next_waits_with g w t Ht) as [C' _].
        rewrite Hnext in C'. simpl in C'.
        eapply only_calls_trans; eassumption.
    - split; [apply only_calls_refl|]. now left. }
  destruct (iterate self recursion_limit others n [] (execute_iter timeout)
              w0) as [ms g w|ms e w|ms w]; tauto.
Qed.

End Timeouts.

(** ** Failures of reversions *)

Section Reversions.

Variable self : FutureGraphAction.
Variable recursion_limit : nat.

Local Abbreviation quiet := (fun c : Call => negb (escalation_call c)).

Lemma analyze_future_of_reversion (future : Future) (next_nodes : list Atom)
  (failures : list Failure) (w : World) :
  fut_event future = ex.REVERTED ->
  only_calls quiet w
             (snd (analyze_future self recursion_limit future next_nodes
                     failures w)).
Proof.
  intros Hevent. unfold analyze_future, analyze_try, result.
  rewrite Hevent.
  assert (H1 : only_calls quiet w (called (future_result future) w)).
  { now apply (only_calls_one _ (future_result future)). }
  destruct (result_response (_task_action self) future w) as [res|e];
    [|exact H1].
  assert (H2 : only_calls quiet w
                 (snd match kind (fut_node future) with
                      | BaseTask =>
                          _complete_task self (fut_node future)
                            ex.REVERTED res
                            (called (future_result future) w)
                      | _ => (Ok tt, called (future_result future) w)
                      end)).
  { destruct (kind (fut_node future)); try exact H1.
    eapply only_calls_trans; [exact H1|].
    unfold _complete_task, complete_reversion, persist. simpl.
    now apply (only_calls_one
                 _ (task_action_complete_reversion (fut_node future) res)). }
  destruct (match kind (fut_node future) with
            | BaseTask => _ | _ => _ end) as [[[]|e] w2]; simpl in H2;
    [|exact H2].
  assert (H3 : only_calls quiet w
                 (called (analyzer_get_next_nodes (Some (fut_node future)))
                         w2)).
  { eapply only_calls_trans; [exact H2|].
    now apply (only_calls_one
                 _ (analyzer_get_next_nodes (Some (fut_node future)))). }
  destruct res as [v|f0]; unfold get_next_nodes;
    destruct (get_next_nodes_answer (_analyzer self)
                (Some (fut_node future)) w2); exact H3.
Qed.

(** X20.  Analyzing futures of reversions never asks a retry controller
    what to do and never writes an intention, whatever their results: a
    failed reversion is not escalated. *)
Theorem reversions_are_not_escalated :
  forall (done : list Future) (next_nodes : list Atom)
         (failures : list Failure) (w : World),
    (forall f, In f done -> fut_event f = ex.REVERTED) ->
    filter escalation_call
           (calls (snd (analyze self recursion_limit done next_nodes
                          failures w)))
    = filter escalation_call (calls w).
Proof.
  intros done next_nodes failures w Hall.
  apply (only_calls_filter quiet).
  { intros c Hc. now apply negb_true_iff in Hc. }
  revert next_nodes failures w.
  induction done as [|future done IH]; intros next_nodes failures w; simpl.
  - apply only_calls_refl.
  - pose proof (analyze_future_of_reversion future next_nodes failures w
                  (Hall future (or_introl eq_refl))) as H1.
    destruct (analyze_future self recursion_limit future next_nodes
                failures w) as [[nodes1 failures1] w1]; simpl in H1.
    eapply only_calls_trans; [exact H1|].
    apply IH. intros f Hf. apply Hall. now right.
Qed.

End Reversions.

Lemma reversions_are_not_escalated_witness :
  filter escalation_call
         (calls (snd (analyze (Demo.action Demo.failing_task) Demo.limit
                        [mkFuture 0 Demo.A ex.REVERTED] [] []
                        (Demo.world Demo.fresh))))
  = [].
Proof.
  apply (reversions_are_not_escalated (Demo.action Demo.failing_task)
           Demo.limit [mkFuture 0 Demo.A ex.REVERTED] [] []
           (Demo.world Demo.fresh)).
  intros f [<-|[]]. reflexivity.
Defined.
